(** * Easegress fragment: load balancer, pipeline configuration and the
  Eureka service-registry sync loop.

  A shallow embedding of three Go source files:
  - [httpbackend]  (package httpbackend: server pool and selection policies),
  - [pipelines]    (package pipelines: [CommonConfig.Prepare]),
  - [eurekaserviceregistry] (package eurekaserviceregistry: [New], [run],
    [update]).

  Go's [int] is taken to be 64 bits wide (amd64, arm64).  A run-time panic
  is an explicit [Panic] result.  What the code calls in the Go standard
  library ([math/rand], [time], [unicode/utf8], [unicode], [strings]) is
  modelled in the modules [rand], [time], [utf8], [unicode] and
  [gostrings], after the library; the [float64] arithmetic of
  [time.ParseDuration] is that of [SpecFloat]. *)

From Stdlib Require Import ZArith Lia.
From Stdlib Require SpecFloat.
From stdpp Require Import gmap strings list.

Local Open Scope Z_scope.

(** ** Go values: fixed-width integers, panics, slices *)

Module Go.

(** Two's complement reinterpretation of [x] on [w] bits, signed. *)
Definition wrap_signed (w : Z) (x : Z) : Z :=
  (x + 2 ^ (w - 1)) mod 2 ^ w - 2 ^ (w - 1).

(** Reduction of [x] to [w] bits, unsigned. *)
Definition wrap_unsigned (w : Z) (x : Z) : Z := x mod 2 ^ w.

(** The conversions [int(x)], [int16(x)], [uint64(x)]. *)
Definition int (x : Z) : Z := wrap_signed 64 x.
Definition int16 (x : Z) : Z := wrap_signed 16 x.
Definition uint64 (x : Z) : Z := wrap_unsigned 64 x.

Definition min_int : Z := - 2 ^ 63.
Definition max_int : Z := 2 ^ 63 - 1.

(** The outcome of an expression that may panic. *)
Inductive result (A : Type) : Type :=
| Ok (a : A)
| Panic (msg : string).
Arguments Ok {A} a.
Arguments Panic {A} msg.

Definition bind {A B : Type} (r : result A) (k : A -> result B) : result B :=
  match r with
  | Ok a => k a
  | Panic msg => Panic msg
  end.

(** [len(l)] as an [int]. *)
Definition len {A : Type} (l : list A) : Z := Z.of_nat (length l).

(** [a % b] on [int]: the remainder of the truncated division; division by
    zero panics. *)
Definition rem (a b : Z) : result Z :=
  if b =? 0 then Panic "integer divide by zero" else Ok (Z.rem a b).

(** [l[i]]: indexing with the run-time bounds check. *)
Definition index {A : Type} (l : list A) (i : Z) : result A :=
  if (i <? 0) || (len l <=? i) then Panic "index out of range"
  else match l !! Z.to_nat i with
       | Some a => Ok a
       | None => Panic "index out of range"
       end.

(** Dereferencing a pointer that may be nil. *)
Definition deref {A : Type} (p : option A) : result A :=
  match p with
  | Some a => Ok a
  | None => Panic "invalid memory address or nil pointer dereference"
  end.

End Go.

Notation "'let!' x ':=' r 'in' k" := (Go.bind r (fun x => k))
(at level 10, x name, r at level 100, k at level 200).

(** ** math/rand *)

Module rand.

(** [rand.Intn(n)] panics when [n <= 0] and otherwise returns a number of
    [[0, n)].  The generator is not modelled: [g] is the raw number the
    generator produces for this call, an arbitrary integer, so that every
    value of [[0, n)] is a possible outcome and no other is. *)
Definition Intn (g : Z) (n : Z) : Go.result Z :=
  if n <=? 0 then Go.Panic "invalid argument to Intn" else Go.Ok (g mod n).

End rand.

(** ** Package httpbackend: the server pool and its selection policies *)

Module httpbackend.

Import Go.

Definition policyRoundRobin : string := "roundRobin".
Definition policyRandom : string := "random".
Definition policyWeightedRandom : string := "weightedRandom".
Definition policyIPHash : string := "ipHash".
Definition policyHeaderHash : string := "headerHash".

(** Server is backend server. *)
Record Server : Type := mkServer {
  URL : string;
  Tags : list string;
  Weight : Z
}.

(** LoadBalance is load balance for multiple servers. *)
Record LoadBalance : Type := mkLoadBalance {
  V : string;
  Policy : string;
  HeaderHashKey : string
}.

(** The pool.  The slice field [servers] of the Go struct is [pool] here,
    since the struct itself is named [servers]. *)
Record servers : Type := mkServers {
  count : Z;
  weightsSum : Z;
  pool : list Server;
  lb : option LoadBalance
}.

(** The fields of the backend [Spec] that [newServers] reads; the struct is
    declared in a file that is not part of the sources at hand.  Its field
    [LoadBalance], a pointer, is [SpecLoadBalance] here. *)
Record Spec : Type := mkSpec {
  Servers : list Server;
  ServersTags : list string;
  SpecLoadBalance : option LoadBalance
}.

(** What the selection functions read from [context.HTTPContext]:
    [ctx.Request().RealIP()] and [ctx.Request().Header().Get(k)]. *)
Record HTTPContext : Type := mkHTTPContext {
  RealIP : string;
  HeaderGet : string -> string
}.

(** The two calls to [logger.Errorf]. *)
Inductive logline : Type :=
| BugUnknownPolicy (policy : string)
| BugCannotPick (sum : Z) (l : list Server).

#[export] Instance Server_eq_dec : EqDecision Server.
Proof. solve_decision. Defined.

(** Validate validates LoadBalance: [None] is the nil error. *)
Definition Validate (lb : LoadBalance) : option string :=
  if String.eqb (Policy lb) policyHeaderHash
     && (Z.of_nat (String.length (HeaderHashKey lb)) =? 0)
  then Some "headerHash needs to speficy headerHashKey"
  else None.

(** [common.StrInSlice(s, l)]: whether [s] occurs in [l]. *)
Definition StrInSlice (s : string) (l : list string) : bool :=
  existsb (String.eqb s) l.

(** The inner loop of [newServers]: the first filter tag found among the
    server's tags appends the server and leaves the loop. *)
Fixpoint tagLoop (tags : list string) (server : Server)
    (acc : list Server) : list Server :=
  match tags with
  | [] => acc
  | tag :: rest =>
      if StrInSlice tag (Tags server) then acc ++ [server]
      else tagLoop rest server acc
  end.

Definition set_weightsSum (w : Z) (s : servers) : servers :=
  mkServers (count s) w (pool s) (lb s).

Definition set_count (c : Z) (s : servers) : servers :=
  mkServers c (weightsSum s) (pool s) (lb s).

Definition prepare (s : servers) : servers :=
  fold_left (fun s server => set_weightsSum (int (weightsSum s + Weight server)) s)
            (pool s) s.

(** [newServers]; the deferred [prepare] runs on each return path. *)
Definition newServers (spec : Spec) : servers :=
  let s := mkServers 0 0 [] (SpecLoadBalance spec) in
  if len (ServersTags spec) =? 0 then
    prepare (mkServers (count s) (weightsSum s) (Servers spec) (lb s))
  else
    let servers :=
      fold_left (fun acc server => tagLoop (ServersTags spec) server acc)
                (Servers spec) [] in
    prepare (mkServers (count s) (weightsSum s) servers (lb s)).

(** [atomic.AddUint64(addr, delta)]: the new value, modulo [2^64]. *)
Definition AddUint64 (old delta : Z) : Z := uint64 (old + delta).

Definition roundRobin (ctx : HTTPContext) (s : servers)
    : servers * Go.result Server :=
  let count := AddUint64 (count s) 1 in
  (set_count count s,
   let! i := rem (int count) (len (pool s)) in index (pool s) i).

Definition random (g : Z) (ctx : HTTPContext) (s : servers)
    : Go.result Server :=
  let! i := rand.Intn g (len (pool s)) in index (pool s) i.

(** The loop of [weightedRandom]: [Some server] is the return from inside
    the loop, [None] is falling out of it. *)
Fixpoint weightedWalk (randomWeight : Z) (l : list Server) : option Server :=
  match l with
  | [] => None
  | server :: rest =>
      let randomWeight := int (randomWeight - Weight server) in
      if randomWeight <? 0 then Some server else weightedWalk randomWeight rest
  end.

(** [g] feeds the draw of [randomWeight], [g'] the draw of the fallback. *)
Definition weightedRandom (g g' : Z) (ctx : HTTPContext) (s : servers)
    : list logline * Go.result Server :=
  match rand.Intn g (weightsSum s) with
  | Panic msg => ([], Panic msg)
  | Ok randomWeight =>
      match weightedWalk randomWeight (pool s) with
      | Some server => ([], Ok server)
      | None => ([BugCannotPick (weightsSum s) (pool s)], random g' ctx s)
      end
  end.

Section Hashing.

(** [hashtool.Hash32], a 32-bit hash of a string; its file is not part of
    the sources at hand and no property below depends on it. *)
Variable Hash32 : string -> Z.

Definition uint32 (x : Z) : Z := wrap_unsigned 32 x.

Definition ipHash (ctx : HTTPContext) (s : servers) : Go.result Server :=
  let sum32 := int (uint32 (Hash32 (RealIP ctx))) in
  let! i := rem sum32 (len (pool s)) in index (pool s) i.

Definition headerHash (ctx : HTTPContext) (s : servers)
    : Go.result Server :=
  match lb s with
  | None => Panic "invalid memory address or nil pointer dereference"
  | Some l =>
      let value := HeaderGet ctx (HeaderHashKey l) in
      let sum32 := int (uint32 (Hash32 value)) in
      let! i := rem sum32 (len (pool s)) in index (pool s) i
  end.

(** [next]: the pool after the call, what was logged, and the server. *)
Definition next (g g' : Z) (ctx : HTTPContext) (s : servers)
    : servers * list logline * Go.result Server :=
  match lb s with
  | None =>
      (s, [], Panic "invalid memory address or nil pointer dereference")
  | Some l =>
      if String.eqb (Policy l) policyRoundRobin then
        let '(s', r) := roundRobin ctx s in (s', [], r)
      else if String.eqb (Policy l) policyRandom then
        (s, [], random g ctx s)
      else if String.eqb (Policy l) policyWeightedRandom then
        let '(log, r) := weightedRandom g g' ctx s in (s, log, r)
      else if String.eqb (Policy l) policyIPHash then
        (s, [], ipHash ctx s)
      else if String.eqb (Policy l) policyHeaderHash then
        (s, [], headerHash ctx s)
      else
        let '(s', r) := roundRobin ctx s in
        (s', [BugUnknownPolicy (Policy l)], r)
  end.

End Hashing.

(** [n] round-robin selections in sequence, each on the pool that the
    previous one left. *)
Fixpoint selections (n : nat) (ctx : HTTPContext) (s : servers)
    : list (Go.result Server) :=
  match n with
  | O => []
  | S n' => let '(s', r) := roundRobin ctx s in r :: selections n' ctx s'
  end.

End httpbackend.

(** ** Strings as byte sequences *)

Module bytes.

(** A Go string is a sequence of bytes; [of_string] lists their values. *)
Fixpoint of_string (s : string) : list Z :=
  match s with
  | EmptyString => []
  | String a rest => Z.of_N (Ascii.N_of_ascii a) :: of_string rest
  end.

Fixpoint eqb (a b : list Z) : bool :=
  match a, b with
  | [], [] => true
  | x :: a', y :: b' => (x =? y) && eqb a' b'
  | _, _ => false
  end.

Definition is_digit (c : Z) : bool := (48 <=? c) && (c <=? 57).

End bytes.

(** ** time.ParseDuration *)

Module time.

Definition Nanosecond : Z := 1.
Definition Microsecond : Z := 1000 * Nanosecond.
Definition Millisecond : Z := 1000 * Microsecond.
Definition Second : Z := 1000 * Millisecond.
Definition Minute : Z := 60 * Second.
Definition Hour : Z := 60 * Minute.

(** The table of units: ns, us, the two spellings of micro in UTF-8
    (U+00B5 and U+03BC), ms, s, m, h. *)
Definition unitMap (u : list Z) : option Z :=
  if bytes.eqb u [110; 115] then Some Nanosecond
  else if bytes.eqb u [117; 115] then Some Microsecond
  else if bytes.eqb u [194; 181; 115] then Some Microsecond
  else if bytes.eqb u [206; 188; 115] then Some Microsecond
  else if bytes.eqb u [109; 115] then Some Millisecond
  else if bytes.eqb u [115] then Some Second
  else if bytes.eqb u [109] then Some Minute
  else if bytes.eqb u [104] then Some Hour
  else None.

(** [leadingInt]: the leading digits as a number and the rest of the
    string; [None] is the overflow error. *)
Fixpoint leadingInt (x : Z) (s : list Z) : option (Z * list Z) :=
  match s with
  | [] => Some (x, [])
  | c :: rest =>
      if negb (bytes.is_digit c) then Some (x, s)
      else if x >? 2 ^ 63 / 10 then None
      else
        let x := x * 10 + c - 48 in
        if x >? 2 ^ 63 then None else leadingInt x rest
  end.

(** [float64]: the binary64 numbers of IEEE 754, as the standard library
    of Rocq specifies them ([prec = 53], [emax = 1024]), with rounding to
    nearest, ties to even. *)
Definition float64 : Type := SpecFloat.spec_float.

(** [float64(x)] for an unsigned integer [x]. *)
Definition float64_of (x : Z) : float64 :=
  SpecFloat.binary_normalize 53 1024 x 0 false.

Definition fmul (x y : float64) : float64 := SpecFloat.SFmul 53 1024 x y.
Definition fdiv (x y : float64) : float64 := SpecFloat.SFdiv 53 1024 x y.

(** [uint64(x)] for a [float64] that is not negative: the integer part.
    The numbers converted in [ParseDuration] are finite and below [2^64]. *)
Definition uint64_of (x : float64) : Z :=
  match x with
  | SpecFloat.S754_finite false m e => Z.shiftl (Zpos m) e
  | _ => 0
  end.

(** [leadingFraction]: the digits after the point as [x / scale]; digits
    that no longer fit are consumed and dropped. *)
Fixpoint leadingFraction (x : Z) (scale : float64) (overflow : bool)
    (s : list Z) : Z * float64 * list Z :=
  match s with
  | [] => (x, scale, [])
  | c :: rest =>
      if negb (bytes.is_digit c) then (x, scale, s)
      else if overflow then leadingFraction x scale true rest
      else if x >? (2 ^ 63 - 1) / 10 then leadingFraction x scale true rest
      else
        let y := x * 10 + c - 48 in
        if y >? 2 ^ 63 then leadingFraction x scale true rest
        else leadingFraction y (fmul scale (float64_of 10)) false rest
  end.

(** The unit: the bytes up to the next digit or point. *)
Fixpoint unitSpan (s : list Z) : list Z * list Z :=
  match s with
  | [] => ([], [])
  | c :: rest =>
      if (c =? 46) || bytes.is_digit c then ([], s)
      else let '(u, s') := unitSpan rest in (c :: u, s')
  end.

(** The loop of [ParseDuration] over the terms of the duration; [fuel]
    bounds the number of terms, each of which consumes at least one byte.
    The fraction of a term contributes
    [uint64(float64(f) * (float64(unit) / scale))]. *)
Fixpoint terms (fuel : nat) (d : Z) (s : list Z) : option Z :=
  match s with
  | [] => Some d
  | c0 :: _ =>
      match fuel with
      | O => None
      | S fuel' =>
          if negb ((c0 =? 46) || bytes.is_digit c0) then None
          else
            match leadingInt 0 s with
            | None => None
            | Some (v, s1) =>
                let pre := negb (length s =? length s1)%nat in
                let '(f, scale, s2, post) :=
                  match s1 with
                  | 46 :: s1' =>
                      let '(f, scale, s2) :=
                        leadingFraction 0 (float64_of 1) false s1' in
                      (f, scale, s2, negb (length s1' =? length s2)%nat)
                  | _ => (0, float64_of 1, s1, false)
                  end in
                if negb pre && negb post then None
                else
                  let '(u, s3) := unitSpan s2 in
                  match u with
                  | [] => None
                  | _ =>
                      match unitMap u with
                      | None => None
                      | Some unit =>
                          if v >? 2 ^ 63 / unit then None
                          else
                            let v := v * unit in
                            let v' :=
                              if f >? 0
                              then Go.uint64
                                     (v + uint64_of
                                            (fmul (float64_of f)
                                                  (fdiv (float64_of unit)
                                                        scale)))
                              else v in
                            if (f >? 0) && (v' >? 2 ^ 63) then None
                            else
                              let d := Go.uint64 (d + v') in
                              if d >? 2 ^ 63 then None
                              else terms fuel' d s3
                      end
                  end
            end
      end
  end.

(** [ParseDuration]: the duration in nanoseconds, or [None] for an error. *)
Definition ParseDuration (str : string) : option Z :=
  let orig := bytes.of_string str in
  let '(neg, s) :=
    match orig with
    | 45 :: rest => (true, rest)
    | 43 :: rest => (false, rest)
    | _ => (false, orig)
    end in
  if bytes.eqb s [48] then Some 0
  else if bytes.eqb s [] then None
  else
    match terms (length s) 0 s with
    | None => None
    | Some d =>
        if neg then Some (Go.int (- Go.int d))
        else if d >? 2 ^ 63 - 1 then None
        else Some (Go.int d)
    end.

End time.

(** ** The Eureka client library, as far as the sync loop reads it *)

Module eureka.

Record Port : Type := mkPort {
  PortNumber : Z;   (* the field [Port] of the struct [Port] *)
  Enabled : bool
}.

Record InstanceInfo : Type := mkInstanceInfo {
  HostName : string;
  IpAddr : string;
  InstancePort : option Port;   (* the field [Port], a pointer *)
  SecurePort : option Port
}.

Record Application : Type := mkApplication {
  AppName : string;             (* the field [Name] *)
  Instances : list InstanceInfo
}.

Record Applications : Type := mkApplications {
  Apps : list Application       (* the field [Applications] *)
}.

(** [eureka.NewClient(endpoints)]. *)
Record Client : Type := NewClient {
  ClientEndpoints : list string
}.

(** What one call of [client.GetApplications()] returns: the applications
    or an error.  The answer of the upstream is an input of the model. *)
Inductive fetched : Type :=
| Fetched (apps : Applications)
| FetchError (err : string).

End eureka.

(** ** Package eurekaserviceregistry: the sync loop *)

Module eurekaserviceregistry.

Import Go.

(** The fields of [serviceregistry.Server] that [update] fills; the struct
    is declared in a package that is not part of the sources at hand.
    [Port] is an [int16] there, as the conversion in [update] shows. *)
Record Server : Type := mkServer {
  ServiceName : string;
  Hostname : string;
  HostIP : string;
  Port : Z;
  Scheme : string
}.

(** Spec describes the EurekaServiceRegistry; [Name] comes from the inlined
    [scheduler.ObjectMeta]. *)
Record Spec : Type := mkSpec {
  Name : string;
  Endpoints : list string;
  SyncInterval : string
}.

(** EurekaServiceRegistry is Object EurekaServiceRegistry.  [done] is the
    channel: [true] once closed.  The two mutexes guard [client] and
    [serversNum]; the model is sequential and leaves them out. *)
Record EurekaServiceRegistry : Type := mkEurekaServiceRegistry {
  spec : Spec;
  client : option eureka.Client;
  serversNum : gmap string Z;
  done : bool
}.

(** What the code does to its collaborators, in order: lines written
    through [logger.Errorf], lines printed to the standard output, and the
    calls on [serviceregistry.Global]. *)
Inductive event : Type :=
| LogGetClientFailed (name err : string)
| LogGetServicesFailed (name err : string)
| LogParseDurationBug (interval : string)
| Printf (server : Server)
| ReplaceServers (name : string) (servers : list Server)
| CloseRegistry (name : string).

Definition is_ReplaceServers (e : event) : bool :=
  match e with ReplaceServers _ _ => true | _ => false end.

Definition is_CloseRegistry (e : event) : bool :=
  match e with CloseRegistry _ => true | _ => false end.

(** DefaultSpec returns EurekaServiceRegistry default spec. *)
Definition DefaultSpec : Spec :=
  mkSpec "" ["http://127.0.0.1:8761/eureka"%string] "10s".

(** Validate validates Spec: [None] is the nil error. *)
Definition Validate (spec : Spec) : option string := None.

Definition set_client (c : option eureka.Client) (esr : EurekaServiceRegistry)
    : EurekaServiceRegistry :=
  mkEurekaServiceRegistry (spec esr) c (serversNum esr) (done esr).

Definition set_serversNum (m : gmap string Z) (esr : EurekaServiceRegistry)
    : EurekaServiceRegistry :=
  mkEurekaServiceRegistry (spec esr) (client esr) m (done esr).

Definition set_done (b : bool) (esr : EurekaServiceRegistry)
    : EurekaServiceRegistry :=
  mkEurekaServiceRegistry (spec esr) (client esr) (serversNum esr) b.

(** [buildClient]: the registry after the call, the client, the error. *)
Definition buildClient (esr : EurekaServiceRegistry)
    : EurekaServiceRegistry * eureka.Client * option string :=
  match client esr with
  | Some c => (esr, c, None)
  | None =>
      let client := eureka.NewClient (Endpoints (spec esr)) in
      (set_client (Some client) esr, client, None)
  end.

Definition getClient (esr : EurekaServiceRegistry)
    : EurekaServiceRegistry * eureka.Client * option string :=
  match client esr with
  | Some client => (esr, client, None)
  | None => buildClient esr
  end.

Definition closeClient (esr : EurekaServiceRegistry) : EurekaServiceRegistry :=
  match client esr with
  | None => esr
  | Some _ => set_client None esr
  end.

(** The state of the two loops of [update]. *)
Record flat : Type := mkFlat {
  servers : list Server;
  counts : gmap string Z;      (* the local map [serversNum] *)
  printed : list event
}.

(** [servers = append(servers, &server); serversNum[app.Name]++], after the
    [fmt.Printf] of the server. *)
Definition emit (name : string) (server : Server) (st : flat) : flat :=
  mkFlat (servers st ++ [server])
         (<[name := int (default 0 (counts st !! name) + 1)]> (counts st))
         (printed st ++ [Printf server]).

Definition enabled (p : option eureka.Port) : bool :=
  match p with
  | Some p => eureka.Enabled p
  | None => false
  end.

Definition with_Scheme (scheme : string) (s : Server) : Server :=
  mkServer (ServiceName s) (Hostname s) (HostIP s) (Port s) scheme.

(** The body of the inner loop of [update] for one instance.  The state is
    returned next to the result: what was printed before a panic stays
    printed. *)
Definition forInstance (name : string) (st : flat)
    (instance : eureka.InstanceInfo) : flat * Go.result unit :=
  match deref (eureka.InstancePort instance) with
  | Panic msg => (st, Panic msg)
  | Ok port =>
      let baseServer :=
        mkServer name (eureka.HostName instance) (eureka.IpAddr instance)
                 (int16 (eureka.PortNumber port)) "" in
      let st :=
        if enabled (eureka.InstancePort instance)
        then emit name baseServer st else st in
      let st :=
        if enabled (eureka.SecurePort instance)
        then emit name (with_Scheme "https" baseServer) st else st in
      (st, Ok tt)
  end.

Fixpoint forInstances (name : string) (st : flat)
    (instances : list eureka.InstanceInfo) : flat * Go.result unit :=
  match instances with
  | [] => (st, Ok tt)
  | instance :: rest =>
      match forInstance name st instance with
      | (st', Ok _) => forInstances name st' rest
      | (st', Panic msg) => (st', Panic msg)
      end
  end.

Fixpoint forApplications (st : flat) (apps : list eureka.Application)
    : flat * Go.result unit :=
  match apps with
  | [] => (st, Ok tt)
  | app :: rest =>
      match forInstances (eureka.AppName app) st (eureka.Instances app) with
      | (st', Ok _) => forApplications st' rest
      | (st', Panic msg) => (st', Panic msg)
      end
  end.

(** [update], one sync tick.  [answer] is what [client.GetApplications()]
    returns in this tick.  The result is the registry object after the
    tick, the events of the tick, and whether the tick panicked. *)
Definition update (answer : eureka.fetched) (esr : EurekaServiceRegistry)
    : EurekaServiceRegistry * list event * Go.result unit :=
  match getClient esr with
  | (esr, _, Some err) =>
      (esr, [LogGetClientFailed (Name (spec esr)) err], Ok tt)
  | (esr, client, None) =>
      match answer with
      | eureka.FetchError err =>
          (esr, [LogGetServicesFailed (Name (spec esr)) err], Ok tt)
      | eureka.Fetched apps =>
          match forApplications (mkFlat [] ∅ []) (eureka.Apps apps) with
          | (st, Panic msg) => (esr, printed st, Panic msg)
          | (st, Ok _) =>
              (set_serversNum (counts st) esr,
               printed st ++ [ReplaceServers (Name (spec esr)) (servers st)],
               Ok tt)
          end
      end
  end.

(** What the [select] of [run] receives: the done signal, or the timer
    together with the answer of the upstream in the tick it starts. *)
Inductive signal : Type :=
| Done
| After (answer : eureka.fetched).

(** The [for] loop of [run] over the signals that arrive; when they are
    used up the loop is still waiting. *)
Fixpoint loop (signals : list signal) (esr : EurekaServiceRegistry)
    : EurekaServiceRegistry * list event * Go.result unit :=
  match signals with
  | [] => (esr, [], Ok tt)
  | Done :: _ => (esr, [], Ok tt)
  | After answer :: rest =>
      match update answer esr with
      | (esr', out, Panic msg) => (esr', out, Panic msg)
      | (esr', out, Ok _) =>
          let '(esr'', out', r) := loop rest esr' in (esr'', out ++ out', r)
      end
  end.

(** [run]: [first] is the answer of the upstream to the update made before
    the loop. *)
Definition run (first : eureka.fetched) (signals : list signal)
    (esr : EurekaServiceRegistry)
    : EurekaServiceRegistry * list event * Go.result unit :=
  match time.ParseDuration (SyncInterval (spec esr)) with
  | None => (esr, [LogParseDurationBug (SyncInterval (spec esr))], Ok tt)
  | Some syncInterval =>
      match update first esr with
      | (esr', out, Panic msg) => (esr', out, Panic msg)
      | (esr', out, Ok _) =>
          let '(esr'', out', r) := loop signals esr' in (esr'', out ++ out', r)
      end
  end.

(** Close closes EurekaServiceRegistry; closing a closed channel panics. *)
Definition Close (esr : EurekaServiceRegistry)
    : EurekaServiceRegistry * list event * Go.result unit :=
  let esr := closeClient esr in
  if done esr then (esr, [], Panic "close of closed channel")
  else (set_done true esr, [CloseRegistry (Name (spec esr))], Ok tt).

(** New creates an EurekaServiceRegistry.  The result is the new object,
    the previous one after its [Close], and the events up to the start of
    the goroutine that executes [run]; the signature has no error. *)
Definition New (spec : Spec) (prev : option EurekaServiceRegistry)
    : Go.result EurekaServiceRegistry * option EurekaServiceRegistry
      * list event :=
  let esr := mkEurekaServiceRegistry spec None ∅ false in
  let '(prev', out, closed) :=
    match prev with
    | None => (None, [], Ok tt)
    | Some p => let '(p', out, r) := Close p in (Some p', out, r)
    end in
  match closed with
  | Panic msg => (Panic msg, prev', out)
  | Ok _ =>
      match getClient esr with
      | (esr, _, Some err) =>
          (Ok esr, prev', out ++ [LogGetClientFailed (Name spec) err])
      | (esr, _, None) => (Ok esr, prev', out)
      end
  end.

End eurekaserviceregistry.

(** ** unicode/utf8, unicode and strings, as far as [strings.TrimSpace]
  needs them *)

Module utf8.

Definition RuneError : Z := 0xFFFD.
Definition RuneSelf : Z := 0x80.
Definition UTFMax : Z := 4.

(** For a first byte of a multi-byte encoding: the size of the encoding
    and the range accepted for the second byte.  [None] is an invalid
    first byte. *)
Definition first (b : Z) : option (Z * Z * Z) :=
  if b <? 0xC2 then None
  else if b <=? 0xDF then Some (2, 0x80, 0xBF)
  else if b =? 0xE0 then Some (3, 0xA0, 0xBF)
  else if b <=? 0xEC then Some (3, 0x80, 0xBF)
  else if b =? 0xED then Some (3, 0x80, 0x9F)
  else if b <=? 0xEF then Some (3, 0x80, 0xBF)
  else if b =? 0xF0 then Some (4, 0x90, 0xBF)
  else if b <=? 0xF3 then Some (4, 0x80, 0xBF)
  else if b =? 0xF4 then Some (4, 0x80, 0x8F)
  else None.

(** Whether [b] is a continuation byte. *)
Definition cont (b : Z) : bool := (0x80 <=? b) && (b <=? 0xBF).

(** [DecodeRuneInString]: the first rune of [s] and its width in bytes;
    an invalid encoding is [(RuneError, 1)]. *)
Definition DecodeRuneInString (s : list Z) : Z * Z :=
  match s with
  | [] => (RuneError, 0)
  | s0 :: t =>
      if s0 <? RuneSelf then (s0, 1)
      else
        match first s0 with
        | None => (RuneError, 1)
        | Some (sz, lo, hi) =>
            if Go.len s <? sz then (RuneError, 1)
            else
              let s1 := nth 0 t 0 in
              if (s1 <? lo) || (hi <? s1) then (RuneError, 1)
              else if sz <=? 2 then
                (Z.lor (Z.shiftl (Z.land s0 0x1F) 6) (Z.land s1 0x3F), 2)
              else
                let s2 := nth 1 t 0 in
                if negb (cont s2) then (RuneError, 1)
                else if sz <=? 3 then
                  (Z.lor (Z.lor (Z.shiftl (Z.land s0 0x0F) 12)
                                (Z.shiftl (Z.land s1 0x3F) 6))
                         (Z.land s2 0x3F), 3)
                else
                  let s3 := nth 2 t 0 in
                  if negb (cont s3) then (RuneError, 1)
                  else
                    (Z.lor (Z.lor (Z.lor (Z.shiftl (Z.land s0 0x07) 18)
                                         (Z.shiftl (Z.land s1 0x3F) 12))
                                  (Z.shiftl (Z.land s2 0x3F) 6))
                           (Z.land s3 0x3F), 4)
        end
  end.

(** [RuneStart(b)]: [b] is not a continuation byte. *)
Definition RuneStart (b : Z) : bool := negb (Z.land b 0xC0 =? 0x80).

(** The backward scan of [DecodeLastRuneInString]:
    [for start--; start >= lim; start--] up to the first rune start. *)
Fixpoint scanBack (fuel : nat) (start lim : Z) (s : list Z) : Z :=
  match fuel with
  | O => start
  | S fuel' =>
      if start <? lim then start
      else if RuneStart (nth (Z.to_nat start) s 0) then start
      else scanBack fuel' (start - 1) lim s
  end.

(** [DecodeLastRuneInString]: the last rune of [s] and its width. *)
Definition DecodeLastRuneInString (s : list Z) : Z * Z :=
  let end_ := Go.len s in
  if end_ =? 0 then (RuneError, 0)
  else
    let start := end_ - 1 in
    let r := nth (Z.to_nat start) s 0 in
    if r <? RuneSelf then (r, 1)
    else
      let lim := Z.max 0 (end_ - UTFMax) in
      let start := scanBack (length s) (start - 1) lim s in
      let start := Z.max 0 start in
      let '(r, size) := DecodeRuneInString (drop (Z.to_nat start) s) in
      if start + size =? end_ then (r, size) else (RuneError, 1).

End utf8.

Module unicode.

(** [IsSpace]: in Latin-1 the characters tab, line feed, vertical tab, form
    feed, carriage return, space, U+0085 and U+00A0; beyond it the
    characters of the property [White_Space]. *)
Definition IsSpace (r : Z) : bool :=
  if (0 <=? r) && (r <=? 0xFF) then
    (r =? 9) || (r =? 10) || (r =? 11) || (r =? 12) || (r =? 13)
    || (r =? 32) || (r =? 0x85) || (r =? 0xA0)
  else
    (r =? 0x1680) || ((0x2000 <=? r) && (r <=? 0x200A))
    || (r =? 0x2028) || (r =? 0x2029) || (r =? 0x202F)
    || (r =? 0x205F) || (r =? 0x3000).

End unicode.

Module gostrings.

(** [indexFunc]: the byte offset of the first rune [r] of [s] with
    [f r = truth], or [-1].  [i] is the offset of [s] in the whole string;
    each step consumes at least one byte, which [fuel] bounds. *)
Fixpoint indexFunc (fuel : nat) (f : Z -> bool) (truth : bool) (i : Z)
    (s : list Z) : Z :=
  match s, fuel with
  | [], _ => -1
  | _, O => -1
  | _, S fuel' =>
      let '(r, size) := utf8.DecodeRuneInString s in
      if Bool.eqb (f r) truth then i
      else indexFunc fuel' f truth (i + size) (drop (Z.to_nat size) s)
  end.

(** [lastIndexFunc]: the same from the end, over [s[0:i]]. *)
Fixpoint lastIndexFunc (fuel : nat) (f : Z -> bool) (truth : bool) (i : Z)
    (s : list Z) : Z :=
  match fuel with
  | O => -1
  | S fuel' =>
      if i >? 0 then
        let '(r, size) := utf8.DecodeLastRuneInString (take (Z.to_nat i) s) in
        let i := i - size in
        if Bool.eqb (f r) truth then i
        else lastIndexFunc fuel' f truth i s
      else -1
  end.

Definition TrimLeftFunc (s : list Z) (f : Z -> bool) : list Z :=
  let i := indexFunc (length s) f false 0 s in
  if i =? -1 then [] else drop (Z.to_nat i) s.

Definition TrimRightFunc (s : list Z) (f : Z -> bool) : list Z :=
  let i := lastIndexFunc (S (length s)) f false (Go.len s) s in
  let i :=
    if (i >=? 0) && (nth (Z.to_nat i) s 0 >=? utf8.RuneSelf) then
      let '(_, wid) := utf8.DecodeRuneInString (drop (Z.to_nat i) s) in
      i + wid
    else i + 1 in
  take (Z.to_nat i) s.

Definition TrimFunc (s : list Z) (f : Z -> bool) : list Z :=
  TrimRightFunc (TrimLeftFunc s f) f.

(** [TrimSpace]: [s] without its leading and trailing white space, as
    Unicode defines it: [TrimFunc(s, unicode.IsSpace)].  The library has in
    addition a short cut for strings of ASCII bytes, with the same result. *)
Definition TrimSpace (s : list Z) : list Z := TrimFunc s unicode.IsSpace.

(** The runes of [s], in order, as [for _, r := range s] yields them. *)
Fixpoint runes (fuel : nat) (s : list Z) : list Z :=
  match s, fuel with
  | [], _ => []
  | _, O => []
  | _, S fuel' =>
      let '(r, size) := utf8.DecodeRuneInString s in
      r :: runes fuel' (drop (Z.to_nat size) s)
  end.

End gostrings.

(** ** Package pipelines: the common configuration *)

Module pipelines.

Record CommonConfig : Type := mkCommonConfig {
  Name : string;
  Plugins : list string;
  ParallelismCount : Z   (* uint16: up to 65535 *)
}.

Definition PipelineName (c : CommonConfig) : string := Name c.
Definition PluginNames (c : CommonConfig) : list string := Plugins c.
Definition Parallelism (c : CommonConfig) : Z := ParallelismCount c.

(** [Prepare]: [None] is the nil error. *)
Definition Prepare (c : CommonConfig) : option string :=
  if Go.len (gostrings.TrimSpace (bytes.of_string (PipelineName c))) =? 0
  then Some "invalid pipeline name"
  else if Go.len (PluginNames c) =? 0 then Some "pipeline is empty"
  else if Parallelism c <? 1 then Some "invalid pipeline parallelism"
  else None.

(** The values of the type [uint16]. *)
Definition is_uint16 (x : Z) : Prop := 0 <= x < 2 ^ 16.

(** A name is blank when each of its characters is white space; the empty
    name is blank. *)
Definition blank (name : string) : Prop :=
  let s := bytes.of_string name in
  Forall (fun r => unicode.IsSpace r = true) (gostrings.runes (length s) s).

End pipelines.

(** ** Notions used to state the properties, and sample data *)

Module balancing.

Import Go httpbackend.

(** The sum of the weights of a list of servers, as an integer. *)
Definition sumWeights (l : list Server) : Z :=
  foldr (fun server acc => Weight server + acc) 0 l.

(** The sum of the weights of the first [k] servers. *)
Definition cumulative (l : list Server) (k : nat) : Z := sumWeights (take k l).

(** The tag set of [server] meets the filter [tags]. *)
Definition tagsIntersect (tags : list string) (server : Server) : Prop :=
  Exists (fun tag => tag ∈ Tags server) tags.

#[export] Instance tagsIntersect_dec tags server :
  Decision (tagsIntersect tags server).
Proof. unfold tagsIntersect. apply _. Defined.

(** Three servers with different addresses. *)
Definition A : Server := mkServer "http://a.example:8080" ["blue"%string] 1.
Definition B : Server := mkServer "http://b.example:8080" ["green"%string] 0.
Definition C : Server :=
  mkServer "http://c.example:8080" ["red"%string; "blue"%string] 0.

Definition noContext : HTTPContext := mkHTTPContext "" (fun _ => ""%string).

Definition balance (policy : string) : option LoadBalance :=
  Some (mkLoadBalance "" policy "").

(** The pool of the servers [(A, 1), (B, 0), (C, 0)], no tag filter. *)
Definition poolABC (policy : string) : servers :=
  newServers (mkSpec [A; B; C] [] (balance policy)).

(** The pool of one server of weight 0. *)
Definition Z0 : Server := mkServer "http://z.example:8080" [] 0.
Definition poolZero : servers :=
  newServers (mkSpec [Z0] [] (balance policyWeightedRandom)).

(** The servers [A, B, C] behind the tag filter [blue]. *)
Definition specBlue : Spec :=
  mkSpec [A; B; C] ["blue"%string] (balance policyRoundRobin).

(** A pool whose counter has reached the greatest [int]. *)
Definition poolWorn : servers := set_count max_int (poolABC policyRoundRobin).

End balancing.

Module samples.

Import eureka eurekaserviceregistry.

(** A registry object named [eureka] that has published two servers of
    the service [orders]. *)
Definition registry (interval : string) : EurekaServiceRegistry :=
  mkEurekaServiceRegistry
    (mkSpec "eureka" ["http://127.0.0.1:8761/eureka"%string] interval)
    None {[ "orders"%string := 2 ]} false.

(** One instance of the service [orders]. *)
Definition instance (port securePort : option eureka.Port) : InstanceInfo :=
  mkInstanceInfo "h1" "10.0.0.1" port securePort.

Definition orders (port securePort : option eureka.Port) : Applications :=
  mkApplications [mkApplication "orders" [instance port securePort]].

Definition entry (port : Z) (scheme : string) : Server :=
  mkServer "orders" "h1" "10.0.0.1" port scheme.

(** Plain port 8080 and secure port 8443, both enabled. *)
Definition bothPorts : Applications :=
  orders (Some (mkPort 8080 true)) (Some (mkPort 8443 true)).

(** The plain port disabled, the secure port enabled. *)
Definition secureOnly : Applications :=
  orders (Some (mkPort 8080 false)) (Some (mkPort 8443 true)).

(** A plain port above the greatest [int16]. *)
Definition highPort : Applications := orders (Some (mkPort 40000 true)) None.

(** No plain port at all, the secure port enabled. *)
Definition nilPort : Applications := orders None (Some (mkPort 8443 true)).

(** A load-balance config whose policy is none of the five. *)
Definition leastConn : httpbackend.LoadBalance :=
  httpbackend.mkLoadBalance "" "leastConn" "".

(** A name made of a space, a tab, a no-break space (U+00A0, the bytes
    C2 A0) and an ideographic space (U+3000, the bytes E3 80 80). *)
Definition blankName : string :=
  String.string_of_list_ascii
    (map Ascii.ascii_of_nat [32; 9; 194; 160; 227; 128; 128]%nat).

(** A pipeline configuration that is in order. *)
Definition pipeline : pipelines.CommonConfig :=
  pipelines.mkCommonConfig "http-pipeline"
    ["http_input"%string; "http_output"%string] 4.

End samples.

Module flattening.

Import Go eureka eurekaserviceregistry.

(** The entries that [update] appends for one instance whose [Port] is not
    nil, read off the loop body: both carry the number of the plain port. *)
Definition entries (name : string) (instance : InstanceInfo) : list Server :=
  match InstancePort instance with
  | None => []
  | Some port =>
      let base :=
        mkServer name (HostName instance) (IpAddr instance)
                 (int16 (PortNumber port)) "" in
      (if Enabled port then [base] else [])
      ++ (if enabled (SecurePort instance)
          then [with_Scheme "https" base] else [])
  end.

Definition flatten (apps : list Application) : list Server :=
  flat_map (fun app => flat_map (entries (AppName app)) (Instances app)) apps.

(** The number of entries of [l] for the service [name]. *)
Definition occurrences (name : string) (l : list Server) : Z :=
  len (filter (fun server => ServiceName server = name) l).

(** The entry of the map [serversNum] for a service with [k] entries. *)
Definition counted (k : Z) : option Z :=
  if k =? 0 then None else Some (int k).

(** The counting of [update]: [serversNum[name]++] for each entry. *)
Definition tally (m : gmap string Z) (l : list Server) : gmap string Z :=
  fold_left
    (fun m server =>
       <[ServiceName server :=
           int (default 0 (m !! ServiceName server) + 1)]> m)
    l m.

(** No instance of [apps] has a nil [Port]. *)
Definition portsPresent (apps : list Application) : Prop :=
  Forall (fun app =>
            Forall (fun instance => InstancePort instance <> None)
                   (Instances app)) apps.

(** Some instance of [apps] has a nil [Port]. *)
Definition portMissing (apps : list Application) : Prop :=
  Exists (fun app =>
            Exists (fun instance => InstancePort instance = None)
                   (Instances app)) apps.

End flattening.

Module trimming.

Import Go utf8.

(** Strings that are runs of whole encodings of runes of which [f]
    holds. *)
Inductive run (f : Z -> bool) : list Z -> Prop :=
| run_nil : run f []
| run_cons c l r :
    c <> [] -> DecodeRuneInString c = (r, len c) -> f r = true -> run f l ->
    run f (c ++ l).

End trimming.

(** ** The rest of the three packages *)

Module httpbackend_len.

Import httpbackend.

(** [len], the method of the pool: the number of its servers. *)
Definition len (s : servers) : Z := Go.len (pool s).

End httpbackend_len.

Module pipeline_types.

(** Pipelines register authority: the keys of [PIPELINE_TYPES]; each value
    is the nil interface. *)
Definition PIPELINE_TYPES : gmap string unit :=
  {[ "LinearPipeline"%string := tt ]}.

Definition ValidType (t : string) : bool :=
  match PIPELINE_TYPES !! t with
  | Some _ => true
  | None => false
  end.

(** [GetAllTypes] appends the keys as [range] yields them, in an order that
    Go leaves open; the list below has them in the order of the map. *)
Definition GetAllTypes : list string := (map_to_list PIPELINE_TYPES).*1.

End pipeline_types.

Module registry_status.

Import eurekaserviceregistry.

(** Status is the status of EurekaServiceRegistry. *)
Record Status : Type := mkStatus {
  Timestamp : Z;
  Health : string;
  ServersNum : gmap string Z
}.

(** The method [Status] of the registry object: the object after the call
    ([getClient] may build the client) and the status.  [Timestamp] keeps
    the zero value of the fresh struct. *)
Definition EurekaServiceRegistry_Status (esr : EurekaServiceRegistry)
    : EurekaServiceRegistry * Status :=
  match getClient esr with
  | (esr, _, Some err) => (esr, mkStatus 0 err (serversNum esr))
  | (esr, _, None) => (esr, mkStatus 0 "ready" (serversNum esr))
  end.

End registry_status.

(** ** Further notions used to state the properties *)

Module rotation.

Import Go httpbackend.

(** [l] turned by one place: its first element goes to the end. *)
Definition rotate1 {A : Type} (l : list A) : list A := drop 1 l ++ take 1 l.

(** The invariants of a pool that [newServers] built from servers whose
    weights are not negative: [weightsSum] is the sum of the weights, and
    the sum is an [int]. *)
Definition sound (s : servers) : Prop :=
  Forall (fun server => 0 <= Weight server) (pool s) /\
  weightsSum s = balancing.sumWeights (pool s) /\
  weightsSum s <= max_int.

(** The five policies of [next]. *)
Definition knownPolicies : list string :=
  [policyRoundRobin; policyRandom; policyWeightedRandom; policyIPHash;
   policyHeaderHash].

(** The servers [A, B, C] behind a tag filter that none of them meets. *)
Definition specGold : Spec :=
  mkSpec [balancing.A; balancing.B; balancing.C] ["gold"%string]
         (balancing.balance policyRandom).

(** A pool of [A, B, C] in the middle of its life. *)
Definition poolUsed (policy : string) : servers :=
  set_count 4 (balancing.poolABC policy).

End rotation.

Module ticks.

Import Go eureka eurekaserviceregistry flattening.

(** The calls of [ReplaceServers] among the events, in order. *)
Definition published (out : list event) : list (string * list Server) :=
  omap (fun e => match e with
                 | ReplaceServers name servers => Some (name, servers)
                 | _ => None
                 end) out.



(** The answers that the loop of [run] serves: those of the timer signals
    before the first done signal. *)
Fixpoint served (signals : list signal) : list fetched :=
  match signals with
  | [] => []
  | Done :: _ => []
  | After answer :: rest => answer :: served rest
  end.

(** An answer without an instance that lacks its [Port]. *)
Definition wholesome (answer : fetched) : Prop :=
  match answer with
  | Fetched apps => portsPresent (Apps apps)
  | FetchError _ => True
  end.

(** The snapshots that a sequence of answers leads to: one for each answer
    that is not an error. *)
Definition snapshots (name : string) (answers : list fetched)
    : list (string * list Server) :=
  omap (fun answer => match answer with
                      | Fetched apps => Some (name, flatten (Apps apps))
                      | FetchError _ => None
                      end) answers.

(** The counts after a sequence of answers: those of the last answer that
    is not an error, or the counts before. *)
Definition lastCounts (m : gmap string Z) (answers : list fetched)
    : gmap string Z :=
  fold_left (fun m answer => match answer with
                             | Fetched apps => tally ∅ (flatten (Apps apps))
                             | FetchError _ => m
                             end) answers m.

(** Two ticks of the scenario: three instances of two services, then two. *)
Definition tick1 : Applications :=
  mkApplications
    [mkApplication "orders"
       [mkInstanceInfo "h1" "10.0.0.1" (Some (mkPort 8080 true)) None;
        mkInstanceInfo "h2" "10.0.0.2" (Some (mkPort 8080 true)) None];
     mkApplication "users"
       [mkInstanceInfo "h3" "10.0.0.3" (Some (mkPort 9090 true)) None]].

Definition tick2 : Applications :=
  mkApplications
    [mkApplication "orders"
       [mkInstanceInfo "h1" "10.0.0.1" (Some (mkPort 8080 true)) None];
     mkApplication "users"
       [mkInstanceInfo "h3" "10.0.0.3" (Some (mkPort 9090 true)) None]].


(** A registry object that is closed. *)
Definition closedRegistry : EurekaServiceRegistry :=
  set_done true (samples.registry "10s").

End ticks.

Module ports.

Import Go eureka eurekaserviceregistry.

(** The number of the plain port of an instance that has one. *)
Definition plainNumber (instance : InstanceInfo) : Z :=
  match InstancePort instance with
  | Some port => PortNumber port
  | None => 0
  end.

(** The entry for the plain port of an instance, when that port is
    enabled, and the entry for its secure port, when that one is; each has
    the name of the application, the host name and address of the instance
    and the number that [update] gives it, that of the plain port as an
    [int16]. *)
Definition plainEntry (app : Application) (instance : InstanceInfo)
    : list Server :=
  if enabled (InstancePort instance)
  then [mkServer (AppName app) (HostName instance) (IpAddr instance)
                 (int16 (plainNumber instance)) ""]
  else [].

Definition secureEntry (app : Application) (instance : InstanceInfo)
    : list Server :=
  if enabled (SecurePort instance)
  then [mkServer (AppName app) (HostName instance) (IpAddr instance)
                 (int16 (plainNumber instance)) "https"]
  else [].

(** One entry for each enabled port: application after application,
    instance after instance, the plain port before the secure one. *)
Definition perPort (apps : list Application) : list Server :=
  flat_map (fun app =>
              flat_map (fun instance =>
                          plainEntry app instance ++ secureEntry app instance)
                       (Instances app)) apps.

(** The numbers of instances with an enabled plain port and with an
    enabled secure port. *)
Definition plainEnabled (apps : list Application) : Z :=
  Go.len (filter (fun instance => enabled (InstancePort instance) = true)
                 (flat_map Instances apps)).

Definition secureEnabled (apps : list Application) : Z :=
  Go.len (filter (fun instance => enabled (SecurePort instance) = true)
                 (flat_map Instances apps)).

End ports.

(** * Properties *)

(** ** Fixed-width arithmetic and slices *)

Section Arithmetic.

Import Go.

Lemma wrap_signed_small w x :
  0 < w -> - 2 ^ (w - 1) <= x < 2 ^ (w - 1) -> wrap_signed w x = x.
Proof.
  intros Hw Hx. unfold wrap_signed.
  assert (H2 : 2 ^ w = 2 * 2 ^ (w - 1)).
  { replace w with (Z.succ (w - 1)) at 1 by lia. rewrite Z.pow_succ_r; lia. }
  rewrite Z.mod_small; lia.
Qed.

Lemma int_small x : min_int <= x <= max_int -> int x = x.
Proof.
  unfold min_int, max_int, int. intros H.
  apply wrap_signed_small; [lia | ]. simpl (64 - 1). lia.
Qed.

Lemma int_int_add x y : int (int x + y) = int (x + y).
Proof.
  unfold int, wrap_signed. f_equal.
  replace ((x + 2 ^ (64 - 1)) mod 2 ^ 64 - 2 ^ (64 - 1) + y + 2 ^ (64 - 1))
    with ((x + 2 ^ (64 - 1)) mod 2 ^ 64 + y) by lia.
  rewrite Z.add_mod_idemp_l by lia. f_equal. lia.
Qed.

End Arithmetic.

(** ** The load balancer *)

Section LoadBalancer.

Import Go httpbackend balancing.

Lemma StrInSlice_elem_of s l : StrInSlice s l = true <-> s ∈ l.
Proof.
  unfold StrInSlice. rewrite existsb_exists. split.
  - intros (x & Hin & Heq). apply String.eqb_eq in Heq. subst x.
    by apply list_elem_of_In.
  - intros Hin. exists s. split; [by apply list_elem_of_In | apply String.eqb_refl].
Qed.

Lemma tagLoop_filter tags server acc :
  tagLoop tags server acc =
  if decide (tagsIntersect tags server) then acc ++ [server] else acc.
Proof.
  induction tags as [| tag rest IH]; cbn [tagLoop].
  - case_decide as H; [inversion H | done].
  - destruct (StrInSlice tag (Tags server)) eqn:E.
    + pose proof (proj1 (StrInSlice_elem_of _ _) E) as E'.
      destruct (decide (tagsIntersect (tag :: rest) server)) as [H | H]; [done | ].
      exfalso. apply H. by constructor.
    + rewrite IH.
      assert (Hn : tag ∉ Tags server).
      { intros Hin. apply StrInSlice_elem_of in Hin. congruence. }
      destruct (decide (tagsIntersect rest server)) as [H | H];
        destruct (decide (tagsIntersect (tag :: rest) server)) as [H' | H'];
        try done.
      * exfalso. apply H'. by constructor 2.
      * exfalso. inversion H'; subst; contradiction.
Qed.

Lemma serverLoop_filter tags l acc :
  fold_left (fun acc server => tagLoop tags server acc) l acc =
  acc ++ filter (tagsIntersect tags) l.
Proof.
  revert acc. induction l as [| server rest IH]; intros acc; cbn [fold_left].
  - by rewrite filter_nil, app_nil_r.
  - rewrite IH, tagLoop_filter, filter_cons.
    case_decide; [by rewrite <- app_assoc | done].
Qed.

Lemma prepare_loop l c w p b :
  fold_left
    (fun s server => set_weightsSum (int (weightsSum s + Weight server)) s)
    l (mkServers c (int w) p b)
  = mkServers c (int (w + sumWeights l)) p b.
Proof.
  revert w. induction l as [| server rest IH]; intros w; simpl.
  - by rewrite Z.add_0_r.
  - unfold set_weightsSum at 2. simpl. rewrite int_int_add, IH.
    f_equal. f_equal. lia.
Qed.

Lemma prepare_fresh c p b :
  prepare (mkServers c 0 p b) = mkServers c (int (sumWeights p)) p b.
Proof.
  unfold prepare. simpl.
  change 0 with (int 0) at 1. by rewrite prepare_loop.
Qed.

Lemma newServers_eq spec :
  newServers spec =
  let p := if decide (ServersTags spec = []) then Servers spec
           else filter (tagsIntersect (ServersTags spec)) (Servers spec) in
  mkServers 0 (int (sumWeights p)) p (SpecLoadBalance spec).
Proof.
  unfold newServers. cbn [count weightsSum lb pool].
  rewrite serverLoop_filter, !prepare_fresh. cbn [app].
  destruct (ServersTags spec) as [| tag rest]; [done | ].
  destruct (decide (tag :: rest = [])); done.
Qed.

Lemma newServers_weightsSum_wraps spec :
  weightsSum (newServers spec) = int (sumWeights (pool (newServers spec))).
Proof. rewrite newServers_eq. reflexivity. Qed.

(** The selection functions leave the servers and the weight sum of the
    pool as the constructor made them. *)
Lemma roundRobin_keeps_pool ctx s :
  pool (fst (roundRobin ctx s)) = pool s /\
  weightsSum (fst (roundRobin ctx s)) = weightsSum s.
Proof. done. Qed.

Lemma sumWeights_nonneg l :
  Forall (fun server => 0 <= Weight server) l -> 0 <= sumWeights l.
Proof. induction 1; simpl; lia. Qed.

Lemma weightedWalk_first_exceeding l : forall r,
  Forall (fun server => 0 <= Weight server) l ->
  0 <= r < sumWeights l -> sumWeights l <= max_int ->
  exists (i : nat) server,
    weightedWalk r l = Some server /\ l !! i = Some server /\
    r < cumulative l (S i) /\
    forall j : nat, (j < i)%nat -> cumulative l (S j) <= r.
Proof.
  induction l as [| server rest IH]; intros r Hw Hr Hmax; simpl in Hr.
  - lia.
  - inversion Hw as [| ? ? Hw0 Hwr]; subst.
    pose proof (sumWeights_nonneg _ Hwr) as Hrest.
    simpl in Hmax. cbn [weightedWalk].
    rewrite int_small by (unfold min_int, max_int in *; lia).
    destruct (r - Weight server <? 0) eqn:E.
    + apply Z.ltb_lt in E. exists 0%nat, server.
      repeat split; [ | lia].
      unfold cumulative. simpl. lia.
    + apply Z.ltb_ge in E.
      destruct (IH (r - Weight server) Hwr) as (i & sv & Hwalk & Hi & Hlt & Hle);
        [lia | lia | ].
      exists (S i), sv. repeat split; [done | done | | ].
      * unfold cumulative in *. simpl. simpl in Hlt. lia.
      * intros [| j] Hj; unfold cumulative in *; simpl.
        -- lia.
        -- specialize (Hle j ltac:(lia)). simpl in Hle. lia.
Qed.

Lemma Intn_range g n :
  0 < n -> rand.Intn g n = Ok (g mod n) /\ 0 <= g mod n < n.
Proof.
  intros Hn. unfold rand.Intn.
  destruct (n <=? 0) eqn:E; [apply Z.leb_le in E; lia | ].
  split; [done | by apply Z.mod_pos_bound].
Qed.

Lemma index_lookup {A : Type} (l : list A) (i : Z) :
  0 <= i < len l ->
  exists a, l !! Z.to_nat i = Some a /\ index l i = Ok a.
Proof.
  intros Hi. unfold index.
  destruct (i <? 0) eqn:E1; [apply Z.ltb_lt in E1; lia | ].
  destruct (len l <=? i) eqn:E2; [apply Z.leb_le in E2; lia | ].
  simpl. destruct (l !! Z.to_nat i) as [a |] eqn:E.
  - by exists a.
  - apply lookup_ge_None in E. unfold len in Hi. lia.
Qed.

Lemma roundRobin_step ctx s :
  pool s <> [] -> 0 <= count s -> count s + 1 <= max_int ->
  exists server,
    pool s !! Z.to_nat ((count s + 1) mod len (pool s)) = Some server /\
    roundRobin ctx s = (set_count (count s + 1) s, Ok server).
Proof.
  intros Hne H0 Hmax. unfold roundRobin, AddUint64, uint64, wrap_unsigned.
  assert (Hlen : 0 < len (pool s)).
  { unfold len. destruct (pool s); [done | simpl; lia]. }
  unfold max_int in Hmax.
  rewrite (Z.mod_small (count s + 1) (2 ^ 64))
    by (change (2 ^ 64) with (2 * 2 ^ 63); lia).
  rewrite int_small by (unfold min_int, max_int; lia).
  unfold rem. destruct (len (pool s) =? 0) eqn:E; [apply Z.eqb_eq in E; lia | ].
  cbn [bind]. rewrite Z.rem_mod_nonneg by lia.
  destruct (index_lookup (pool s) ((count s + 1) mod len (pool s)))
    as (server & Hl & Hi); [by apply Z.mod_pos_bound | ].
  exists server. by rewrite Hi.
Qed.

(** Past the greatest [int] the index is negative and the selection
    panics: the counter is converted to [int] before the remainder. *)
Example roundRobin_worn_counter_panics :
  (roundRobin noContext poolWorn).2 = Panic "index out of range".
Proof. reflexivity. Qed.

(** With the policy [roundRobin], [next] is [roundRobin]. *)
Lemma next_roundRobin Hash32 g g' ctx s l :
  lb s = Some l -> Policy l = policyRoundRobin ->
  next Hash32 g g' ctx s = ((roundRobin ctx s).1, [], (roundRobin ctx s).2).
Proof.
  intros Hl Hp. unfold next. rewrite Hl, Hp. cbn [String.eqb].
  change (String.eqb policyRoundRobin policyRoundRobin) with true.
  cbv iota. by destruct (roundRobin ctx s).
Qed.

(** With the policy [weightedRandom], [next] is [weightedRandom]. *)
Lemma next_weightedRandom Hash32 g g' ctx s l :
  lb s = Some l -> Policy l = policyWeightedRandom ->
  next Hash32 g g' ctx s
  = (s, (weightedRandom g g' ctx s).1, (weightedRandom g g' ctx s).2).
Proof.
  intros Hl Hp. unfold next. rewrite Hl, Hp.
  change (String.eqb policyWeightedRandom policyRoundRobin) with false.
  change (String.eqb policyWeightedRandom policyRandom) with false.
  change (String.eqb policyWeightedRandom policyWeightedRandom) with true.
  cbv iota. by destruct (weightedRandom g g' ctx s).
Qed.

(** A policy that is none of the five is logged and served round-robin. *)
Example next_unknown_policy Hash32 g g' :
  next Hash32 g g' noContext (poolABC "leastConn")
  = (set_count 1 (poolABC "leastConn"), [BugUnknownPolicy "leastConn"], Ok B).
Proof. reflexivity. Qed.

End LoadBalancer.

Section LoadBalancerSpec.

Import Go httpbackend balancing.

(** C1, as the specification states it, does not hold: nine selections in
    sequence from the fresh round-robin pool of [A, B, C] do not come in
    the order A, B, C, A, B, C, A, B, C; the first server returned is B. *)
Lemma roundRobin_order_counterexample :
  selections 9 noContext (poolABC policyRoundRobin)
  <> [Ok A; Ok B; Ok C; Ok A; Ok B; Ok C; Ok A; Ok B; Ok C].
Proof. vm_compute. discriminate. Qed.

(** C1, amended: a round-robin selection increments the 64-bit counter and
    returns the server at the index (incremented counter) mod len(servers),
    as long as the incremented counter is at most the greatest [int]; so
    nine selections in sequence from a fresh pool of three servers a, b, c
    return b, c, a, b, c, a, b, c, a. *)
Theorem roundRobin_uses_incremented_counter :
  (forall ctx s,
     pool s <> [] -> 0 <= count s -> count s + 1 <= max_int ->
     exists server,
       pool s !! Z.to_nat ((count s + 1) mod len (pool s)) = Some server /\
       roundRobin ctx s = (set_count (count s + 1) s, Ok server)) /\
  (forall ctx a b c lb,
     selections 9 ctx (newServers (mkSpec [a; b; c] [] lb))
     = [Ok b; Ok c; Ok a; Ok b; Ok c; Ok a; Ok b; Ok c; Ok a]).
Proof.
  split; [exact roundRobin_step | ].
  intros ctx a b c l. rewrite newServers_eq. cbn -[int sumWeights].
  reflexivity.
Qed.

Lemma roundRobin_uses_incremented_counter_witness :
  (pool (poolABC policyRoundRobin) <> [] /\
   0 <= count (poolABC policyRoundRobin) /\
   count (poolABC policyRoundRobin) + 1 <= max_int) /\
  exists server,
    pool (poolABC policyRoundRobin)
      !! Z.to_nat ((count (poolABC policyRoundRobin) + 1)
                   mod len (pool (poolABC policyRoundRobin))) = Some server /\
    roundRobin noContext (poolABC policyRoundRobin)
    = (set_count (count (poolABC policyRoundRobin) + 1)
                 (poolABC policyRoundRobin), Ok server).
Proof.
  assert (H : pool (poolABC policyRoundRobin) <> [] /\
              0 <= count (poolABC policyRoundRobin) /\
              count (poolABC policyRoundRobin) + 1 <= max_int).
  { vm_compute. repeat split; discriminate. }
  split; [exact H | ].
  destruct H as (H1 & H2 & H3).
  exact (proj1 roundRobin_uses_incremented_counter noContext _ H1 H2 H3).
Defined.

(** [rand.Intn] panics on a weight sum that is not positive, and the
    selection with it. *)
Lemma weightedRandom_nonpositive_sum_panics g g' ctx s :
  weightsSum s <= 0 ->
  weightedRandom g g' ctx s = ([], Panic "invalid argument to Intn").
Proof.
  intros Hs. unfold weightedRandom, rand.Intn.
  destruct (weightsSum s <=? 0) eqn:E; [done | ].
  apply Z.leb_gt in E. lia.
Qed.

(** C3 is not met by the code.  On the pool of the one server [Z0] of
    weight 0, which is not empty and has [weightsSum = 0], [weightedRandom]
    panics in [rand.Intn(0)], whatever the generator yields: it neither
    falls back to [random] nor returns a server; so does [next] with the
    policy [weightedRandom]. *)
Theorem weightedRandom_zero_sum_panics :
  forall Hash32 g g' ctx,
    pool poolZero <> [] /\ weightsSum poolZero = 0 /\
    weightedRandom g g' ctx poolZero
    = ([], Panic "invalid argument to Intn") /\
    next Hash32 g g' ctx poolZero
    = (poolZero, [], Panic "invalid argument to Intn").
Proof.
  intros Hash32 g g' ctx.
  split; [discriminate | ]. split; [reflexivity | ].
  split; [by apply weightedRandom_nonpositive_sum_panics | ].
  rewrite (next_weightedRandom Hash32 g g' ctx poolZero
             (mkLoadBalance "" policyWeightedRandom "")) by reflexivity.
  by rewrite weightedRandom_nonpositive_sum_panics.
Qed.

(** C6: on a pool with [weightsSum > 0], where [weightsSum] is the sum of
    the weights as the constructor computes it and no weight is negative,
    [weightedRandom] draws [r] in [[0, weightsSum)] and returns the first
    server, in the order of the list, whose cumulative weight is greater
    than [r], without a line in the log; over the pool
    [(A, 1), (B, 0), (C, 0)] each selection returns A. *)
Theorem weightedRandom_first_exceeding :
  (forall g g' ctx s,
     Forall (fun server => 0 <= Weight server) (pool s) ->
     weightsSum s = sumWeights (pool s) ->
     0 < weightsSum s <= max_int ->
     exists r (i : nat) server,
       rand.Intn g (weightsSum s) = Ok r /\ 0 <= r < weightsSum s /\
       weightedRandom g g' ctx s = ([], Ok server) /\
       pool s !! i = Some server /\
       r < cumulative (pool s) (S i) /\
       forall j : nat, (j < i)%nat -> cumulative (pool s) (S j) <= r) /\
  (forall g g' ctx,
     weightedRandom g g' ctx (poolABC policyWeightedRandom) = ([], Ok A)).
Proof.
  split.
  - intros g g' ctx s Hw Hsum Hpos.
    destruct (Intn_range g (weightsSum s)) as [HI Hr]; [lia | ].
    destruct (weightedWalk_first_exceeding (pool s) (g mod weightsSum s) Hw)
      as (i & server & Hwalk & Hi & Hlt & Hle); [lia | lia | ].
    exists (g mod weightsSum s), i, server.
    unfold weightedRandom. rewrite HI, Hwalk. done.
  - intros g g' ctx. unfold weightedRandom.
    change (weightsSum (poolABC policyWeightedRandom)) with 1.
    destruct (Intn_range g 1) as [HI Hr]; [lia | ]. rewrite HI.
    replace (g mod 1) with 0 by lia. reflexivity.
Qed.

Lemma weightedRandom_first_exceeding_witness :
  (Forall (fun server => 0 <= Weight server)
          (pool (poolABC policyWeightedRandom)) /\
   weightsSum (poolABC policyWeightedRandom)
   = sumWeights (pool (poolABC policyWeightedRandom)) /\
   0 < weightsSum (poolABC policyWeightedRandom) <= max_int) /\
  exists r (i : nat) server,
    rand.Intn 7 (weightsSum (poolABC policyWeightedRandom)) = Ok r /\
    0 <= r < weightsSum (poolABC policyWeightedRandom) /\
    weightedRandom 7 11 noContext (poolABC policyWeightedRandom)
    = ([], Ok server) /\
    pool (poolABC policyWeightedRandom) !! i = Some server /\
    r < cumulative (pool (poolABC policyWeightedRandom)) (S i) /\
    forall j : nat,
      (j < i)%nat ->
      cumulative (pool (poolABC policyWeightedRandom)) (S j) <= r.
Proof.
  assert (H : Forall (fun server => 0 <= Weight server)
                     (pool (poolABC policyWeightedRandom)) /\
              weightsSum (poolABC policyWeightedRandom)
              = sumWeights (pool (poolABC policyWeightedRandom)) /\
              0 < weightsSum (poolABC policyWeightedRandom) <= max_int).
  { split; [ | split; [reflexivity | vm_compute; split; [reflexivity | discriminate]]].
    repeat constructor; vm_compute; discriminate. }
  split; [exact H | ].
  destruct H as (H1 & H2 & H3).
  exact (proj1 weightedRandom_first_exceeding 7 11 noContext _ H1 H2 H3).
Defined.

(** C7, as the specification states it, does not hold: [Validate] accepts
    a policy that is none of the five known ones. *)
Lemma Validate_unknown_policy_counterexample :
  ~ In (Policy samples.leastConn)
       [policyRoundRobin; policyRandom; policyWeightedRandom; policyIPHash;
        policyHeaderHash] /\
  Validate samples.leastConn = None.
Proof.
  split; [ | reflexivity].
  simpl. intros H. repeat (destruct H as [H | H]; [discriminate H | ]). exact H.
Qed.

(** C7, amended: [LoadBalance.Validate] returns an error exactly for the
    configs with policy [headerHash] and an empty [headerHashKey]; for each
    other policy value, one of the four other known policies or not, it
    returns nil whatever the [headerHashKey]. *)
Theorem Validate_error_iff lb :
  Validate lb <> None <->
  Policy lb = policyHeaderHash /\ HeaderHashKey lb = ""%string.
Proof.
  unfold Validate.
  destruct (String.eqb (Policy lb) policyHeaderHash) eqn:E.
  - apply String.eqb_eq in E.
    destruct (HeaderHashKey lb) as [| a k]; simpl.
    + split; [done | discriminate].
    + split; [ | intros [_ H]; discriminate H].
      intros H. exfalso. apply H.
      destruct (Z.of_nat (S (String.length k)) =? 0) eqn:E'; [ | done].
      apply Z.eqb_eq in E'. lia.
  - apply String.eqb_neq in E. simpl. split; [done | ].
    intros [H _]. contradiction.
Qed.

(** C8: the pool that [newServers] builds holds the servers of the spec
    when [ServersTags] is empty, and otherwise exactly those servers of the
    spec, in their order, whose tags meet [ServersTags]; its [weightsSum]
    is the sum of the weights of the servers of the pool (an [int], so the
    sum is to lie in the range of [int]). *)
Theorem newServers_pool_and_weightsSum spec :
  min_int <= sumWeights (pool (newServers spec)) <= max_int ->
  (ServersTags spec = [] -> pool (newServers spec) = Servers spec) /\
  (ServersTags spec <> [] ->
     pool (newServers spec)
     = filter (tagsIntersect (ServersTags spec)) (Servers spec) /\
     forall server,
       server ∈ pool (newServers spec) <->
       server ∈ Servers spec /\
       exists tag, tag ∈ ServersTags spec /\ tag ∈ Tags server) /\
  weightsSum (newServers spec) = sumWeights (pool (newServers spec)) /\
  count (newServers spec) = 0 /\ lb (newServers spec) = SpecLoadBalance spec.
Proof.
  intros Hrange.
  rewrite newServers_weightsSum_wraps, int_small by exact Hrange.
  rewrite newServers_eq. cbn [pool count lb].
  split; [ | split; [ | done]].
  - intros ->. done.
  - intros Hne. destruct (decide (ServersTags spec = [])); [done | ].
    split; [done | ].
    intros server. rewrite list_elem_of_filter. unfold tagsIntersect.
    rewrite Exists_exists. split.
    + intros [(tag & Hin & Ht) Hs]. split; [done | ]. by exists tag.
    + intros [Hs (tag & Hin & Ht)]. split; [ | done]. by exists tag.
Qed.

Lemma newServers_pool_and_weightsSum_witness :
  min_int <= sumWeights (pool (newServers specBlue)) <= max_int /\
  ((ServersTags specBlue = [] ->
    pool (newServers specBlue) = Servers specBlue) /\
   (ServersTags specBlue <> [] ->
      pool (newServers specBlue)
      = filter (tagsIntersect (ServersTags specBlue)) (Servers specBlue) /\
      forall server,
        server ∈ pool (newServers specBlue) <->
        server ∈ Servers specBlue /\
        exists tag, tag ∈ ServersTags specBlue /\ tag ∈ Tags server) /\
   weightsSum (newServers specBlue) = sumWeights (pool (newServers specBlue)) /\
   count (newServers specBlue) = 0 /\
   lb (newServers specBlue) = SpecLoadBalance specBlue).
Proof.
  assert (H : min_int <= sumWeights (pool (newServers specBlue)) <= max_int).
  { vm_compute. split; discriminate. }
  split; [exact H | ].
  exact (newServers_pool_and_weightsSum specBlue H).
Defined.

(** The filter [blue] keeps A and C, in this order, with the weight sum 1. *)
Example newServers_blue :
  pool (newServers specBlue) = [A; C] /\ weightsSum (newServers specBlue) = 1.
Proof. split; reflexivity. Qed.

End LoadBalancerSpec.
(** ** The sync loop of the service registry *)

Section SyncLoop.

Import Go eureka eurekaserviceregistry flattening.

Lemma getClient_no_error esr :
  exists c, getClient esr = (set_client (Some c) esr, c, None).
Proof.
  unfold getClient, buildClient. destruct esr as [sp [c |] n d]; simpl.
  - by exists c.
  - by eexists.
Qed.

Lemma forInstance_nil_Port name st instance :
  InstancePort instance = None ->
  exists msg, forInstance name st instance = (st, Panic msg).
Proof. intros H. unfold forInstance. rewrite H. simpl. by eexists. Qed.

Lemma forInstance_present name st instance port :
  InstancePort instance = Some port ->
  forInstance name st instance
  = (mkFlat (servers st ++ entries name instance)
            (tally (counts st) (entries name instance))
            (printed st ++ map Printf (entries name instance)),
     Ok tt).
Proof.
  intros H. unfold forInstance, entries. rewrite H. cbn [deref enabled].
  destruct st as [l m out].
  destruct (Enabled port), (enabled (SecurePort instance));
    unfold emit; cbn; rewrite <- ?app_assoc, ?app_nil_r; reflexivity.
Qed.

Lemma entries_ServiceName name instance :
  Forall (fun server => ServiceName server = name) (entries name instance).
Proof.
  unfold entries. destruct (InstancePort instance) as [port |]; [ | constructor].
  destruct (Enabled port), (enabled (SecurePort instance));
    repeat constructor.
Qed.

Lemma tally_app m l1 l2 : tally m (l1 ++ l2) = tally (tally m l1) l2.
Proof. unfold tally. by rewrite fold_left_app. Qed.

Lemma forInstances_present name instances : forall st,
  Forall (fun instance => InstancePort instance <> None) instances ->
  forInstances name st instances
  = (mkFlat (servers st ++ flat_map (entries name) instances)
            (tally (counts st) (flat_map (entries name) instances))
            (printed st ++ map Printf (flat_map (entries name) instances)),
     Ok tt).
Proof.
  induction instances as [| instance rest IH]; intros st Hp; cbn [forInstances].
  - destruct st. cbn. by rewrite !app_nil_r.
  - inversion Hp as [| ? ? Hi Hr]; subst.
    destruct (InstancePort instance) as [port |] eqn:E; [ | done].
    rewrite (forInstance_present _ _ _ _ E), (IH _ Hr).
    cbn [servers counts printed flat_map].
    by rewrite tally_app, map_app, !app_assoc.
Qed.

Lemma forApplications_present apps : forall st,
  portsPresent apps ->
  forApplications st apps
  = (mkFlat (servers st ++ flatten apps)
            (tally (counts st) (flatten apps))
            (printed st ++ map Printf (flatten apps)),
     Ok tt).
Proof.
  induction apps as [| app rest IH]; intros st Hp; cbn [forApplications].
  - destruct st. cbn. by rewrite !app_nil_r.
  - inversion Hp as [| ? ? Ha Hr]; subst.
    rewrite (forInstances_present _ _ _ Ha), (IH _ Hr).
    unfold flatten. cbn [servers counts printed flat_map].
    by rewrite tally_app, map_app, !app_assoc.
Qed.

Lemma occurrences_nonneg name l : 0 <= occurrences name l.
Proof. unfold occurrences, len. lia. Qed.

Lemma occurrences_snoc name l server :
  occurrences name (l ++ [server])
  = occurrences name l + (if decide (ServiceName server = name) then 1 else 0).
Proof.
  unfold occurrences, len. rewrite filter_app, length_app, filter_cons, filter_nil.
  case_decide; simpl; lia.
Qed.

Lemma tally_counted l : forall l0 m,
  (forall name, m !! name = counted (occurrences name l0)) ->
  forall name, tally m l !! name = counted (occurrences name (l0 ++ l)).
Proof.
  induction l as [| server rest IH]; intros l0 m Hm name.
  - rewrite app_nil_r. apply Hm.
  - cbn [tally fold_left].
    change (fold_left _ rest ?m') with (tally m' rest).
    replace (l0 ++ server :: rest) with ((l0 ++ [server]) ++ rest)
      by (by rewrite <- app_assoc).
    apply IH. intros n. rewrite occurrences_snoc.
    destruct (decide (ServiceName server = n)) as [-> | Hne].
    + rewrite lookup_insert_eq, Hm. unfold counted.
      pose proof (occurrences_nonneg n l0).
      destruct (occurrences n l0 =? 0) eqn:E0.
      * apply Z.eqb_eq in E0. rewrite E0. reflexivity.
      * apply Z.eqb_neq in E0.
        destruct (occurrences n l0 + 1 =? 0) eqn:E1;
          [apply Z.eqb_eq in E1; lia | ].
        cbn [default]. unfold id. by rewrite int_int_add.
    + rewrite lookup_insert_ne by done. rewrite Hm. by rewrite Z.add_0_r.
Qed.

(** One tick over applications whose instances all have a [Port]: the
    entries are published by one call of [ReplaceServers], after they are
    printed, and [serversNum] counts the entries of each service. *)
Lemma update_present esr apps :
  portsPresent (Apps apps) ->
  exists c,
    update (Fetched apps) esr
    = (set_serversNum (tally ∅ (flatten (Apps apps)))
                      (set_client (Some c) esr),
       map Printf (flatten (Apps apps))
       ++ [ReplaceServers (Name (spec esr)) (flatten (Apps apps))],
       Ok tt) /\
    forall name,
      tally ∅ (flatten (Apps apps)) !! name
      = counted (occurrences name (flatten (Apps apps))).
Proof.
  intros Hp. destruct (getClient_no_error esr) as [c Hc]. exists c. split.
  - unfold update. rewrite Hc, (forApplications_present _ _ Hp). reflexivity.
  - intros name. apply (tally_counted _ [] ∅). intros n. apply lookup_empty.
Qed.

Lemma forInstance_printed name st instance :
  exists out, printed (forInstance name st instance).1 = printed st ++ out /\
              Forall (fun e => is_ReplaceServers e = false) out.
Proof.
  destruct (InstancePort instance) as [port |] eqn:E.
  - rewrite (forInstance_present _ _ _ _ E). cbn. eexists. split; [done | ].
    apply Forall_map. by apply Forall_true.
  - destruct (forInstance_nil_Port name st _ E) as [msg ->].
    exists []. by rewrite app_nil_r.
Qed.

Lemma forInstances_printed name instances : forall st,
  exists out, printed (forInstances name st instances).1 = printed st ++ out /\
              Forall (fun e => is_ReplaceServers e = false) out.
Proof.
  induction instances as [| instance rest IH]; intros st; cbn [forInstances].
  - exists []. by rewrite app_nil_r.
  - destruct (forInstance_printed name st instance) as (out & Ho & Hf).
    destruct (forInstance name st instance) as [st' [[] | msg]]; cbn in Ho.
    + destruct (IH st') as (out' & Ho' & Hf'). exists (out ++ out').
      rewrite Ho', Ho, app_assoc. split; [done | by apply Forall_app].
    + by exists out.
Qed.

Lemma forApplications_printed apps : forall st,
  exists out, printed (forApplications st apps).1 = printed st ++ out /\
              Forall (fun e => is_ReplaceServers e = false) out.
Proof.
  induction apps as [| app rest IH]; intros st; cbn [forApplications].
  - exists []. by rewrite app_nil_r.
  - destruct (forInstances_printed (AppName app) (Instances app) st)
      as (out & Ho & Hf).
    destruct (forInstances (AppName app) st (Instances app))
      as [st' [[] | msg]]; cbn in Ho.
    + destruct (IH st') as (out' & Ho' & Hf'). exists (out ++ out').
      rewrite Ho', Ho, app_assoc. split; [done | by apply Forall_app].
    + by exists out.
Qed.

Lemma forInstances_nil_Port name instances : forall st,
  Exists (fun instance => InstancePort instance = None) instances ->
  exists msg, (forInstances name st instances).2 = Panic msg.
Proof.
  induction instances as [| instance rest IH]; intros st Hex;
    [inversion Hex | ]. cbn [forInstances].
  destruct (InstancePort instance) as [port |] eqn:E.
  - rewrite (forInstance_present _ _ _ _ E).
    inversion Hex as [? ? H | ? ? H]; subst; [congruence | ]. by apply IH.
  - destruct (forInstance_nil_Port name st _ E) as [msg ->]. by exists msg.
Qed.

Lemma forInstances_result name st instances :
  (forInstances name st instances).2 = Ok tt \/
  exists msg, (forInstances name st instances).2 = Panic msg.
Proof. destruct (forInstances name st instances) as [? [[] | msg]]; eauto. Qed.

Lemma forApplications_nil_Port apps : forall st,
  portMissing apps ->
  exists msg, (forApplications st apps).2 = Panic msg.
Proof.
  induction apps as [| app rest IH]; intros st Hex; [inversion Hex | ].
  cbn [forApplications].
  destruct (forInstances (AppName app) st (Instances app))
    as [st' [[] | msg]] eqn:E.
  - inversion Hex as [? ? H | ? ? H]; subst; [ | by apply IH].
    destruct (forInstances_nil_Port (AppName app) _ st H) as [msg Hm].
    rewrite E in Hm. discriminate Hm.
  - by exists msg.
Qed.

End SyncLoop.

Section SyncLoopSpec.

Import Go eureka eurekaserviceregistry flattening.

(** C2, as the specification states it, does not hold: the interval [abc]
    does not parse as a duration, yet [Validate] accepts the spec and [New]
    returns the object; the error is found by [run], at run time. *)
Lemma malformed_syncInterval_counterexample :
  time.ParseDuration (SyncInterval (spec (samples.registry "abc"))) = None /\
  Validate (spec (samples.registry "abc")) = None /\
  (exists esr, (New (spec (samples.registry "abc")) None).1.1 = Ok esr) /\
  (run (FetchError "") [] (samples.registry "abc")).1.2
  = [LogParseDurationBug "abc"].
Proof. repeat split. by eexists. Qed.

(** The default interval parses; an interval without a unit, an empty one
    and one with a space do not. *)
Example ParseDuration_samples :
  time.ParseDuration (SyncInterval DefaultSpec) = Some (10 * time.Second) /\
  time.ParseDuration "1h30m" = Some (90 * time.Minute) /\
  time.ParseDuration "-1.5s" = Some (- 1500 * time.Millisecond) /\
  time.ParseDuration "10" = None /\
  time.ParseDuration "" = None /\
  time.ParseDuration "10 s" = None.
Proof. repeat split. Qed.

(** At the edge of the range the [float64] product of the fraction
    decides: the first interval is an error, the second is the least
    duration. *)
Example ParseDuration_float_edges :
  time.ParseDuration "9223372036.854775807999999999s" = None /\
  time.ParseDuration "-153722867.28091293015000m" = Some (- 2 ^ 63) /\
  time.ParseDuration "2562047h47m16.854775807s" = Some (2 ^ 63 - 1) /\
  time.ParseDuration "2562047h47m16.854775808s" = None.
Proof. repeat split. Qed.

(** C2, amended: [Spec.Validate] returns nil for each spec, and [New] has
    no error result: for each spec and each previous object it returns the
    object, unless the previous object is closed already, and then it
    panics on the closed channel whatever the spec; without a previous
    object it returns the object for each spec.  A [syncInterval] that does
    not parse as a duration is found by [run], which logs it and returns
    before the first update: nothing is published and [serversNum] stays
    as it is. *)
Theorem malformed_syncInterval_found_by_run :
  (forall sp, Validate sp = None) /\
  (forall sp prev,
     (exists esr, (New sp prev).1.1 = Ok esr /\ spec esr = sp) \/
     (exists p, prev = Some p /\ done p = true /\
                (New sp prev).1.1 = Panic "close of closed channel")) /\
  (forall sp, exists esr, (New sp None).1.1 = Ok esr /\ spec esr = sp) /\
  (forall first signals esr,
     time.ParseDuration (SyncInterval (spec esr)) = None ->
     run first signals esr
     = (esr, [LogParseDurationBug (SyncInterval (spec esr))], Ok tt)).
Proof.
  split; [done | ]. split; [ | split].
  - intros sp [p |]; unfold New.
    + unfold Close.
      assert (Hd : done (closeClient p) = done p).
      { unfold closeClient. by destruct (client p). }
      rewrite Hd. destruct (done p) eqn:E.
      * right. by exists p.
      * left.
        destruct (getClient_no_error (mkEurekaServiceRegistry sp None ∅ false))
          as [c ->].
        by eexists.
    + left.
      destruct (getClient_no_error (mkEurekaServiceRegistry sp None ∅ false))
        as [c ->].
      by eexists.
  - intros sp. unfold New.
    destruct (getClient_no_error (mkEurekaServiceRegistry sp None ∅ false))
      as [c ->].
    by eexists.
  - intros first signals esr Hparse. unfold run. by rewrite Hparse.
Qed.

Lemma malformed_syncInterval_found_by_run_witness :
  time.ParseDuration (SyncInterval (spec (samples.registry "abc"))) = None /\
  run (FetchError "") [] (samples.registry "abc")
  = (samples.registry "abc",
     [LogParseDurationBug (SyncInterval (spec (samples.registry "abc")))],
     Ok tt).
Proof.
  assert (H : time.ParseDuration
                (SyncInterval (spec (samples.registry "abc"))) = None)
    by reflexivity.
  split; [exact H | ].
  exact (proj2 (proj2 (proj2 malformed_syncInterval_found_by_run))
               (FetchError "") [] (samples.registry "abc") H).
Defined.

(** C5: when the fetch of a tick fails, be it the retrieval of the client
    or [GetApplications] that returns the error, [update] absorbs it: it
    logs one line and returns; [ReplaceServers] and [CloseRegistry] are not
    called, so what was published stays published, and [serversNum] is left
    as it was. *)
Theorem update_fetch_error_keeps_snapshot esr answer :
  (getClient esr).2 <> None \/ (exists err, answer = FetchError err) ->
  exists c out,
    update answer esr = (set_client (Some c) esr, out, Ok tt) /\
    serversNum (update answer esr).1.1 = serversNum esr /\
    (exists err, out = [LogGetClientFailed (Name (spec esr)) err] \/
                 out = [LogGetServicesFailed (Name (spec esr)) err]) /\
    Forall (fun e => is_ReplaceServers e = false) out /\
    Forall (fun e => is_CloseRegistry e = false) out.
Proof.
  intros H. destruct (getClient_no_error esr) as [c Hc].
  destruct H as [H | [err ->]]; [by rewrite Hc in H | ].
  unfold update. rewrite Hc. cbn.
  exists c. eexists. split; [reflexivity | ].
  repeat split; [by exists err; right | by repeat constructor ..].
Qed.

Lemma update_fetch_error_keeps_snapshot_witness :
  ((getClient (samples.registry "10s")).2 <> None \/
   exists err, FetchError "connection refused" = FetchError err) /\
  exists c out,
    update (FetchError "connection refused") (samples.registry "10s")
    = (set_client (Some c) (samples.registry "10s"), out, Ok tt) /\
    serversNum (update (FetchError "connection refused")
                       (samples.registry "10s")).1.1
    = serversNum (samples.registry "10s") /\
    (exists err,
       out = [LogGetClientFailed (Name (spec (samples.registry "10s"))) err] \/
       out = [LogGetServicesFailed (Name (spec (samples.registry "10s"))) err]) /\
    Forall (fun e => is_ReplaceServers e = false) out /\
    Forall (fun e => is_CloseRegistry e = false) out.
Proof.
  assert (H : (getClient (samples.registry "10s")).2 <> None \/
              exists err, FetchError "connection refused" = FetchError err)
    by (right; by eexists).
  split; [exact H | ].
  exact (update_fetch_error_keeps_snapshot _ _ H).
Defined.

(** A tick whose fetch fails does not end the loop: the next signal is
    served by the registry object as the failed tick left it. *)
Lemma loop_retries_after_fetch_error err rest esr :
  exists c,
    loop (After (FetchError err) :: rest) esr
    = (let '(esr', out, r) := loop rest (set_client (Some c) esr) in
       (esr', LogGetServicesFailed (Name (spec esr)) err :: out, r)).
Proof.
  destruct (getClient_no_error esr) as [c Hc]. exists c.
  cbn [loop]. unfold update. rewrite Hc. cbn.
  by destruct (loop rest (set_client (Some c) esr)) as [[esr' out] r].
Qed.

(** C4 is not met by the code.  For an instance with
    the plain port 8080 and the secure port 8443, both enabled, [update]
    publishes two entries that both carry 8080: the https entry does not
    carry the number of the secure port.  With the plain port disabled the
    one entry published carries the number of the plain port all the same,
    and a port number above 32767 is published as a negative number. *)
Theorem update_secure_entry_carries_plain_port :
  forall esr,
    (update (Fetched samples.bothPorts) esr).1.2
    = [Printf (samples.entry 8080 ""); Printf (samples.entry 8080 "https");
       ReplaceServers (Name (spec esr))
         [samples.entry 8080 ""; samples.entry 8080 "https"]] /\
    serversNum (update (Fetched samples.bothPorts) esr).1.1 !! "orders"%string
    = Some 2 /\
    (update (Fetched samples.secureOnly) esr).1.2
    = [Printf (samples.entry 8080 "https");
       ReplaceServers (Name (spec esr)) [samples.entry 8080 "https"]] /\
    (update (Fetched samples.highPort) esr).1.2
    = [Printf (samples.entry (-25536) "");
       ReplaceServers (Name (spec esr)) [samples.entry (-25536) ""]].
Proof.
  intros esr.
  destruct (getClient_no_error esr) as [c Hc].
  unfold update. rewrite Hc. repeat split.
Qed.

(** C10: [update] builds the base server from [instance.Port.Port] before
    it tests [instance.Port] for nil.  When some instance of the fetched
    applications has a nil [Port], the tick panics: [ReplaceServers] is not
    called and [serversNum] stays as it was.  The instance of the sample,
    whose [SecurePort] is enabled, makes the tick panic with nothing
    printed and no entry for the secure port. *)
Theorem update_nil_Port_panics esr apps :
  portMissing (Apps apps) ->
  (exists msg, (update (Fetched apps) esr).2 = Panic msg) /\
  serversNum (update (Fetched apps) esr).1.1 = serversNum esr /\
  Forall (fun e => is_ReplaceServers e = false) (update (Fetched apps) esr).1.2 /\
  (update (Fetched samples.nilPort) esr).1.2 = [] /\
  (update (Fetched samples.nilPort) esr).2
  = Panic "invalid memory address or nil pointer dereference".
Proof.
  intros Hex. destruct (getClient_no_error esr) as [c Hc].
  unfold update. rewrite Hc.
  destruct (forApplications_nil_Port (Apps apps) (mkFlat [] ∅ []) Hex)
    as [msg Hm].
  destruct (forApplications_printed (Apps apps) (mkFlat [] ∅ []))
    as (out & Ho & Hf).
  destruct (forApplications (mkFlat [] ∅ []) (Apps apps)) as [st r].
  cbn in Hm, Ho. subst r. cbn. rewrite Ho.
  repeat split; [by exists msg | done].
Qed.

Lemma update_nil_Port_panics_witness :
  portMissing (Apps samples.nilPort) /\
  (exists msg,
     (update (Fetched samples.nilPort)
             (samples.registry "10s")).2 = Panic msg).
Proof.
  assert (H : portMissing
                (Apps samples.nilPort)).
  { constructor. constructor. reflexivity. }
  split; [exact H | ].
  exact (proj1 (update_nil_Port_panics (samples.registry "10s") _ H)).
Defined.

End SyncLoopSpec.

(** ** Trimming white space, and the pipeline configuration *)

Section Utf8.

Import Go utf8.

Lemma first_size b sz lo hi : first b = Some (sz, lo, hi) -> 2 <= sz <= 4.
Proof.
  unfold first. intros H.
  repeat match type of H with
         | (if ?c then _ else _) = _ => destruct c
         end; inversion H; lia.
Qed.

Lemma len_cons {A : Type} (a : A) (l : list A) : len (a :: l) = 1 + len l.
Proof. unfold len. simpl length. lia. Qed.

Lemma len_nonneg {A : Type} (l : list A) : 0 <= len l.
Proof. unfold len. lia. Qed.

Lemma len_app {A : Type} (l k : list A) : len (l ++ k) = len l + len k.
Proof. unfold len. rewrite length_app. lia. Qed.

(** A decoded rune of a string that is not empty is at least one byte and
    at most the string wide. *)
Lemma DecodeRuneInString_size s :
  s <> [] ->
  1 <= (DecodeRuneInString s).2 <= len s.
Proof.
  destruct s as [| s0 t]; [done | intros _].
  pose proof (len_nonneg t) as Ht. rewrite len_cons.
  unfold DecodeRuneInString.
  destruct (s0 <? RuneSelf); [simpl; lia | ].
  destruct (first s0) as [[[sz lo] hi] |] eqn:E; [ | simpl; lia].
  apply first_size in E. rewrite len_cons.
  destruct (1 + len t <? sz) eqn:E0; [simpl; lia | ].
  apply Z.ltb_ge in E0.
  destruct ((nth 0 t 0 <? lo) || (hi <? nth 0 t 0)); [simpl; lia | ].
  destruct (sz <=? 2) eqn:E2; [simpl; lia | ]. apply Z.leb_gt in E2.
  destruct (negb (cont (nth 1 t 0))); [simpl; lia | ].
  destruct (sz <=? 3) eqn:E3; [simpl; lia | ]. apply Z.leb_gt in E3.
  destruct (negb (cont (nth 2 t 0))); simpl; lia.
Qed.

(** A rune that decodes from the whole of [c] decodes alike from [c]
    followed by more bytes. *)
Lemma DecodeRuneInString_prefix c rest r size :
  DecodeRuneInString c = (r, size) -> r <> RuneError -> size = len c ->
  DecodeRuneInString (c ++ rest) = (r, size).
Proof.
  destruct c as [| s0 t]; [simpl; intros H; inversion H; done | ].
  intros H Hr Hsize. pose proof (len_nonneg rest) as Hrest.
  rewrite len_cons in Hsize. rewrite <- app_comm_cons.
  unfold DecodeRuneInString in *.
  destruct (s0 <? RuneSelf); [done | ].
  destruct (first s0) as [[[sz lo] hi] |] eqn:E; [ | done].
  apply first_size in E. rewrite len_cons in *. rewrite len_app.
  destruct (1 + len t <? sz) eqn:E0; [inversion H; congruence | ].
  apply Z.ltb_ge in E0.
  replace (1 + (len t + len rest) <? sz) with false
    by (symmetry; apply Z.ltb_ge; lia).
  assert (Hnth : forall k : nat, (k < length t)%nat ->
                   nth k (t ++ rest) 0 = nth k t 0).
  { intros k Hk. by apply app_nth1. }
  unfold len in *.
  destruct ((nth 0 t 0 <? lo) || (hi <? nth 0 t 0)) eqn:E1;
    [inversion H; congruence | ].
  rewrite (Hnth 0%nat) by lia. rewrite E1.
  destruct (sz <=? 2) eqn:E2; [done | ]. apply Z.leb_gt in E2.
  destruct (negb (cont (nth 1 t 0))) eqn:E3; [inversion H; congruence | ].
  rewrite (Hnth 1%nat) by lia. rewrite E3.
  destruct (sz <=? 3) eqn:E4; [done | ]. apply Z.leb_gt in E4.
  destruct (negb (cont (nth 2 t 0))) eqn:E5; [inversion H; congruence | ].
  rewrite (Hnth 2%nat) by lia. by rewrite E5.
Qed.

Lemma drop_last_nth (s : list Z) :
  s <> [] -> drop (length s - 1) s = [nth (length s - 1) s 0].
Proof.
  induction s as [| a t IH]; [done | intros _].
  destruct t as [| b t']; [done | ].
  replace (length (a :: b :: t') - 1)%nat with (S (length (b :: t') - 1))
    by (simpl; lia).
  cbn [drop nth]. by apply IH.
Qed.

Lemma scanBack_le fuel : forall start lim s, scanBack fuel start lim s <= start.
Proof.
  induction fuel as [| fuel IH]; intros start lim s; simpl; [lia | ].
  destruct (start <? lim); [lia | ].
  destruct (RuneStart _); [lia | ].
  specialize (IH (start - 1) lim s). lia.
Qed.

(** A last rune other than [RuneError] is the rune that decodes from the
    last [size] bytes, all of them. *)
Lemma DecodeLastRuneInString_valid s r size :
  s <> [] -> DecodeLastRuneInString s = (r, size) -> r <> RuneError ->
  1 <= size <= len s /\
  DecodeRuneInString (drop (Z.to_nat (len s - size)) s) = (r, size).
Proof.
  intros Hne H Hr. unfold DecodeLastRuneInString in H.
  assert (Hlen : 1 <= len s).
  { destruct s; [done | rewrite len_cons; pose proof (len_nonneg s); lia]. }
  destruct (len s =? 0) eqn:E0; [apply Z.eqb_eq in E0; lia | ].
  destruct (nth (Z.to_nat (len s - 1)) s 0 <? RuneSelf) eqn:E1.
  - inversion H; subst. split; [lia | ].
    assert (Hd : drop (Z.to_nat (len s - 1)) s = [nth (Z.to_nat (len s - 1)) s 0]).
    { unfold len. replace (Z.to_nat (Z.of_nat (length s) - 1))
        with (length s - 1)%nat by lia.
      by apply drop_last_nth. }
    rewrite Hd. unfold DecodeRuneInString. by rewrite E1.
  - set (start := Z.max 0 (scanBack (length s) (len s - 1 - 1)
                                    (Z.max 0 (len s - UTFMax)) s)) in H.
    pose proof (scanBack_le (length s) (len s - 1 - 1)
                            (Z.max 0 (len s - UTFMax)) s) as Hscan.
    assert (Hstart : 0 <= start < len s) by (unfold start; lia).
    destruct (DecodeRuneInString (drop (Z.to_nat start) s)) as [r' size'] eqn:Ed.
    destruct (start + size' =? len s) eqn:E2; [ | inversion H; congruence].
    apply Z.eqb_eq in E2. inversion H; subst r' size'.
    split; [lia | ].
    replace (len s - size) with start by lia. exact Ed.
Qed.

Lemma DecodeLastRuneInString_size s :
  s <> [] -> 1 <= (DecodeLastRuneInString s).2 <= len s.
Proof.
  intros Hne. unfold DecodeLastRuneInString.
  assert (Hlen : 1 <= len s).
  { destruct s; [done | rewrite len_cons; pose proof (len_nonneg s); lia]. }
  destruct (len s =? 0) eqn:E0; [apply Z.eqb_eq in E0; lia | ].
  destruct (nth (Z.to_nat (len s - 1)) s 0 <? RuneSelf); [simpl; lia | ].
  set (start := Z.max 0 (scanBack (length s) (len s - 1 - 1)
                                  (Z.max 0 (len s - UTFMax)) s)).
  pose proof (scanBack_le (length s) (len s - 1 - 1)
                          (Z.max 0 (len s - UTFMax)) s) as Hscan.
  assert (Hstart : 0 <= start < len s) by (unfold start; lia).
  destruct (DecodeRuneInString (drop (Z.to_nat start) s)) as [r' size'].
  destruct (start + size' =? len s) eqn:E2; [ | simpl; lia].
  apply Z.eqb_eq in E2. simpl. lia.
Qed.

End Utf8.

Section Trimming.

Import Go utf8 gostrings trimming.

Variable f : Z -> bool.
Hypothesis f_RuneError : f RuneError = false.

Lemma eqb_false_iff_false b : Bool.eqb b false = negb b.
Proof. by destruct b. Qed.

(** [indexFunc] finds nothing exactly when [f] holds of each rune. *)
Lemma indexFunc_none fuel : forall i s,
  (length s <= fuel)%nat -> 0 <= i ->
  (indexFunc fuel f false i s = -1 <->
   Forall (fun r => f r = true) (runes fuel s)).
Proof.
  induction fuel as [| fuel IH]; intros i s Hfuel Hi.
  - destruct s; [simpl; split; [constructor | done] | simpl in Hfuel; lia].
  - destruct s as [| s0 t]; [simpl; split; [constructor | done] | ].
    cbn [indexFunc runes].
    pose proof (DecodeRuneInString_size (s0 :: t) ltac:(done)) as Hsize.
    destruct (DecodeRuneInString (s0 :: t)) as [r size]. cbn in Hsize.
    rewrite eqb_false_iff_false.
    destruct (f r) eqn:Er; cbn [negb].
    + rewrite IH; [ | rewrite length_drop; simpl in *; lia | lia].
      split; [by constructor | by inversion 1].
    + split; [lia | ]. inversion 1; congruence.
Qed.

(** When [indexFunc] finds a rune, the string from there on is not empty
    and starts with a rune of which [f] does not hold. *)
Lemma indexFunc_found fuel : forall i s,
  (length s <= fuel)%nat -> 0 <= i -> indexFunc fuel f false i s <> -1 ->
  exists k : nat,
    indexFunc fuel f false i s = i + Z.of_nat k /\
    drop k s <> [] /\
    f (DecodeRuneInString (drop k s)).1 = false.
Proof.
  induction fuel as [| fuel IH]; intros i s Hfuel Hi Hfound.
  - destruct s; simpl in *; [done | lia].
  - destruct s as [| s0 t]; [done | ].
    cbn [indexFunc] in *.
    pose proof (DecodeRuneInString_size (s0 :: t) ltac:(done)) as Hsize.
    destruct (DecodeRuneInString (s0 :: t)) as [r size] eqn:Ed. cbn in Hsize.
    rewrite eqb_false_iff_false in *.
    destruct (f r) eqn:Er; cbn [negb] in *.
    + destruct (IH (i + size) (drop (Z.to_nat size) (s0 :: t)))
        as (k & Hk & Hne & Hf); [rewrite length_drop; simpl in *; lia | lia | done | ].
      exists (Z.to_nat size + k)%nat. rewrite Hk.
      rewrite drop_drop in Hne, Hf. split; [lia | done].
    + exists 0%nat. rewrite drop_0, Ed. split; [lia | done].
Qed.

Lemma run_snoc l c r :
  run f l -> c <> [] -> DecodeRuneInString c = (r, len c) -> f r = true ->
  run f (l ++ c).
Proof.
  intros Hl Hc Hd Hf. induction Hl as [| c' l' r' Hc' Hd' Hf' Hl' IH].
  - rewrite app_nil_l, <- (app_nil_r c). by apply (run_cons f c [] r), run_nil.
  - rewrite <- app_assoc. by apply (run_cons f c' _ r').
Qed.

Lemma run_first s :
  run f s -> s = [] \/ f (DecodeRuneInString s).1 = true.
Proof.
  destruct 1 as [| c l r Hc Hd Hf Hl]; [by left | right].
  rewrite (DecodeRuneInString_prefix c l r (len c)); [done | done | | done].
  congruence.
Qed.

Lemma take_len_nonempty (s : list Z) i :
  0 < i <= len s -> take (Z.to_nat i) s <> [] /\ len (take (Z.to_nat i) s) = i.
Proof.
  intros Hi. unfold len in *.
  assert (Hl : length (take (Z.to_nat i) s) = Z.to_nat i)
    by (rewrite length_take; lia).
  split; [ | lia].
  intros E. rewrite E in Hl. simpl in Hl. lia.
Qed.

Lemma lastIndexFunc_below fuel : forall i s,
  0 <= i <= len s -> lastIndexFunc fuel f false i s <= i - 1.
Proof.
  induction fuel as [| fuel IH]; intros i s Hi; cbn [lastIndexFunc]; [lia | ].
  destruct (i >? 0) eqn:E; [ | lia].
  assert (Hpos : 0 < i) by lia.
  destruct (take_len_nonempty s i ltac:(lia)) as [Hne Hlen].
  pose proof (DecodeLastRuneInString_size _ Hne) as Hsize.
  destruct (DecodeLastRuneInString (take (Z.to_nat i) s)) as [r size].
  cbn in Hsize. rewrite Hlen in Hsize.
  destruct (Bool.eqb (f r) false); [lia | ].
  specialize (IH (i - size) s ltac:(lia)). lia.
Qed.

(** When [lastIndexFunc] finds nothing in [s[0:i]], that prefix is a run
    of runes of which [f] holds. *)
Lemma lastIndexFunc_none fuel : forall i s,
  0 <= i <= len s -> (Z.to_nat i < fuel)%nat ->
  lastIndexFunc fuel f false i s < 0 ->
  run f (take (Z.to_nat i) s).
Proof.
  induction fuel as [| fuel IH]; intros i s Hi Hfuel Hnone; [lia | ].
  cbn [lastIndexFunc] in Hnone.
  destruct (i >? 0) eqn:E.
  - assert (Hpos : 0 < i) by lia.
    destruct (take_len_nonempty s i ltac:(lia)) as [Hne Hlen].
    pose proof (DecodeLastRuneInString_size _ Hne) as Hsize.
    destruct (DecodeLastRuneInString (take (Z.to_nat i) s)) as [r size] eqn:Ed.
    cbn in Hsize. rewrite Hlen in Hsize.
    rewrite eqb_false_iff_false in Hnone.
    destruct (f r) eqn:Er; cbn [negb] in Hnone; [ | lia].
    assert (Hr : r <> RuneError) by congruence.
    destruct (DecodeLastRuneInString_valid _ _ _ Hne Ed Hr) as [_ Hd].
    rewrite Hlen in Hd.
    specialize (IH (i - size) s ltac:(lia) ltac:(lia) Hnone).
    assert (Hsplit : take (Z.to_nat i) s
                     = take (Z.to_nat (i - size)) s
                       ++ drop (Z.to_nat (i - size)) (take (Z.to_nat i) s)).
    { rewrite <- (take_drop (Z.to_nat (i - size)) (take (Z.to_nat i) s)) at 1.
      f_equal. rewrite take_take. f_equal. lia. }
    rewrite Hsplit.
    assert (Hc : len (drop (Z.to_nat (i - size)) (take (Z.to_nat i) s)) = size).
    { unfold len in *. rewrite length_drop. lia. }
    apply (run_snoc _ _ r); [done | | by rewrite Hc | done].
    intros E0. rewrite E0 in Hc. unfold len in Hc. simpl in Hc. lia.
  - replace (Z.to_nat i) with 0%nat by lia. rewrite take_0. apply run_nil.
Qed.

(** Trimming on the right leaves a string that starts with a rune of
    which [f] does not hold not empty. *)
Lemma TrimRightFunc_nonempty t :
  t <> [] -> f (DecodeRuneInString t).1 = false -> TrimRightFunc t f <> [].
Proof.
  intros Hne Hfirst. unfold TrimRightFunc.
  set (i := lastIndexFunc (S (length t)) f false (len t) t).
  pose proof (len_nonneg t) as Hlen.
  assert (Hi : 0 <= i <= len t - 1).
  { split; [ | apply lastIndexFunc_below; lia].
    destruct (Z.lt_ge_cases i 0) as [Hneg | ]; [ | done].
    apply lastIndexFunc_none in Hneg; [ | lia | unfold len; lia].
    unfold len in Hneg. rewrite Nat2Z.id, firstn_all in Hneg.
    destruct (run_first _ Hneg); congruence. }
  assert (Htake : forall j, 1 <= j -> take (Z.to_nat j) t <> []).
  { intros j Hj E. apply (f_equal length) in E.
    rewrite length_take in E. unfold len in *. simpl in E.
    destruct t; [done | simpl in E; lia]. }
  destruct ((i >=? 0) && (nth (Z.to_nat i) t 0 >=? RuneSelf)).
  - assert (Hd : drop (Z.to_nat i) t <> []).
    { intros E. apply (f_equal length) in E. rewrite length_drop in E.
      unfold len in *. simpl in E. lia. }
    pose proof (DecodeRuneInString_size _ Hd) as Hsize.
    destruct (DecodeRuneInString (drop (Z.to_nat i) t)) as [r wid].
    cbn in Hsize. apply Htake. lia.
  - apply Htake. lia.
Qed.

Lemma TrimFunc_empty_iff s :
  len (TrimFunc s f) = 0 <->
  Forall (fun r => f r = true) (runes (length s) s).
Proof.
  rewrite <- (indexFunc_none (length s) 0 s) by lia.
  unfold TrimFunc, TrimLeftFunc.
  destruct (indexFunc (length s) f false 0 s =? -1) eqn:E.
  - apply Z.eqb_eq in E. split; [done | reflexivity].
  - apply Z.eqb_neq in E. split; [ | done]. intros Hlen. exfalso.
    destruct (indexFunc_found (length s) 0 s ltac:(lia) ltac:(lia) E)
      as (k & Hk & Hne & Hf).
    rewrite Hk, Z.add_0_l, Nat2Z.id in Hlen.
    apply (TrimRightFunc_nonempty _ Hne Hf).
    unfold len in Hlen. destruct (TrimRightFunc (drop k s) f); [done | ].
    simpl in Hlen. lia.
Qed.

End Trimming.

Section PipelineSpec.

Import Go pipelines.

Lemma TrimSpace_empty_iff name :
  len (gostrings.TrimSpace (bytes.of_string name)) = 0 <-> blank name.
Proof. unfold gostrings.TrimSpace, blank. by apply TrimFunc_empty_iff. Qed.

(** C9: [CommonConfig.Prepare] returns an error if and only if the name
    of the pipeline is blank (empty, or white space only), the list of
    plugins is empty, or the parallelism is zero; each error has a message
    that names the cause; with a name that is not blank, some plugin and a
    parallelism of at least 1 it returns nil. *)
Theorem Prepare_error_iff c :
  is_uint16 (ParallelismCount c) ->
  (Prepare c <> None <->
   blank (Name c) \/ Plugins c = [] \/ ParallelismCount c = 0) /\
  (~ blank (Name c) -> Plugins c <> [] -> 1 <= ParallelismCount c ->
   Prepare c = None) /\
  (blank (Name c) -> Prepare c = Some "invalid pipeline name"%string) /\
  (~ blank (Name c) -> Plugins c = [] ->
   Prepare c = Some "pipeline is empty"%string) /\
  (~ blank (Name c) -> Plugins c <> [] -> ParallelismCount c = 0 ->
   Prepare c = Some "invalid pipeline parallelism"%string).
Proof.
  intros [Hlo Hhi]. unfold Prepare, PipelineName, PluginNames, Parallelism.
  pose proof (TrimSpace_empty_iff (Name c)) as Hblank.
  destruct (len (gostrings.TrimSpace (bytes.of_string (Name c))) =? 0) eqn:E0.
  { apply Z.eqb_eq in E0. apply Hblank in E0. repeat split; try done; tauto. }
  apply Z.eqb_neq in E0.
  assert (Hnb : ~ blank (Name c)) by tauto.
  destruct (Plugins c) as [| p ps] eqn:Ep.
  { repeat split; try done; tauto. }
  change (len (p :: ps) =? 0) with false. cbv iota.
  destruct (ParallelismCount c <? 1) eqn:E1.
  - apply Z.ltb_lt in E1.
    repeat split; try done; try tauto; try lia; intros; right; right; lia.
  - apply Z.ltb_ge in E1.
    repeat split; try done; try tauto; try lia;
      intros [H | [H | H]]; [tauto | done | lia].
Qed.

Lemma Prepare_error_iff_witness :
  is_uint16 (ParallelismCount samples.pipeline) /\
  Prepare samples.pipeline = None.
Proof.
  assert (H : is_uint16 (ParallelismCount samples.pipeline))
    by (split; [discriminate | reflexivity]).
  split; [exact H | ].
  apply (Prepare_error_iff samples.pipeline H).
  - intros Hb. apply TrimSpace_empty_iff in Hb. vm_compute in Hb. discriminate Hb.
  - discriminate.
  - discriminate.
Defined.

(** A name of spaces, a tab, a no-break space (U+00A0) and an ideographic
    space (U+3000) is blank; so is the empty name. *)
Example Prepare_blank_names :
  Prepare (mkCommonConfig "" ["p"%string] 1) = Some "invalid pipeline name"%string /\
  Prepare (mkCommonConfig samples.blankName ["p"%string] 1)
  = Some "invalid pipeline name"%string /\
  Prepare (mkCommonConfig " a " ["p"%string] 1) = None.
Proof. repeat split. Qed.

End PipelineSpec.

(** ** More on the load balancer *)

Section Selection.

Import Go httpbackend balancing rotation.

Lemma len_pos {A : Type} (l : list A) : l <> [] -> 0 < len l.
Proof. destruct l; [done | ]. unfold len. simpl. lia. Qed.

Lemma index_elem_of {A : Type} (l : list A) (i : Z) :
  0 <= i < len l ->
  exists a, index l i = Ok a /\ l !! Z.to_nat i = Some a /\ a ∈ l.
Proof.
  intros Hi. destruct (index_lookup l i Hi) as (a & Hl & Ha).
  exists a. repeat split; [done | done | by eapply list_elem_of_lookup_2].
Qed.

(** The index that the two hash policies compute is within the pool. *)
Lemma hashed_index_in_pool (h : Z) (l : list Server) :
  l <> [] ->
  exists server,
    (let! i := rem (int (uint32 h)) (len l) in index l i) = Ok server /\
    l !! Z.to_nat ((h mod 2 ^ 32) mod len l) = Some server /\ server ∈ l.
Proof.
  intros Hne. pose proof (len_pos l Hne) as Hlen.
  unfold uint32, wrap_unsigned.
  assert (Hh : 0 <= h mod 2 ^ 32 < 2 ^ 32) by (apply Z.mod_pos_bound; lia).
  rewrite int_small by (unfold min_int, max_int; lia).
  unfold rem. destruct (len l =? 0) eqn:E; [apply Z.eqb_eq in E; lia | ].
  cbn [bind]. rewrite Z.rem_mod_nonneg by lia.
  destruct (index_elem_of l ((h mod 2 ^ 32) mod len l)) as (a & Hi & Hl & Ha);
    [by apply Z.mod_pos_bound | ].
  by exists a.
Qed.

Lemma random_index g ctx s :
  pool s <> [] ->
  exists server,
    random g ctx s = Ok server /\
    pool s !! Z.to_nat (g mod len (pool s)) = Some server /\ server ∈ pool s.
Proof.
  intros Hne. pose proof (len_pos _ Hne) as Hlen. unfold random.
  destruct (Intn_range g _ Hlen) as [-> Hr]. cbn [bind].
  destruct (index_elem_of (pool s) _ Hr) as (a & Hi & Hl & Ha). by exists a.
Qed.

(** X1: on a pool that is not empty [random] returns, for each draw, a
    server of the pool, and each server of the pool is returned for some
    draw. *)
Theorem random_covers_pool ctx s :
  pool s <> [] ->
  (forall g, exists server, random g ctx s = Ok server /\ server ∈ pool s) /\
  (forall server,
     server ∈ pool s ->
     exists g, 0 <= g < len (pool s) /\ random g ctx s = Ok server).
Proof.
  intros Hne. split.
  - intros g. destruct (random_index g ctx s Hne) as (a & Hr & _ & Ha).
    by exists a.
  - intros server Hin. apply list_elem_of_lookup_1 in Hin as [i Hi].
    pose proof (lookup_lt_Some _ _ _ Hi) as Hlt.
    exists (Z.of_nat i). unfold len. split; [lia | ].
    destruct (random_index (Z.of_nat i) ctx s Hne) as (a & Hr & Hl & _).
    rewrite Z.mod_small in Hl by (unfold len; lia).
    rewrite Nat2Z.id in Hl. congruence.
Qed.

Lemma random_covers_pool_witness :
  pool (poolABC policyRandom) <> [] /\
  ((forall g, exists server,
      random g noContext (poolABC policyRandom) = Ok server /\
      server ∈ pool (poolABC policyRandom)) /\
   (forall server,
      server ∈ pool (poolABC policyRandom) ->
      exists g, 0 <= g < len (pool (poolABC policyRandom)) /\
                random g noContext (poolABC policyRandom) = Ok server)).
Proof.
  assert (H : pool (poolABC policyRandom) <> []) by discriminate.
  split; [exact H | ].
  exact (random_covers_pool noContext _ H).
Defined.

Lemma next_empty_panics Hash32 g g' ctx s l :
  pool s = [] -> weightsSum s = 0 -> lb s = Some l ->
  exists msg, (next Hash32 g g' ctx s).2 = Panic msg.
Proof.
  intros Hp Hw Hl. unfold next. rewrite Hl.
  repeat match goal with
         | |- context [if ?c then _ else _] => destruct c
         end;
    unfold roundRobin, random, weightedRandom, ipHash, headerHash;
    rewrite ?Hl, ?Hp, ?Hw; cbn; by eexists.
Qed.

(** The pool is empty exactly when the spec has no server, or has a filter
    that no server meets. *)
Lemma newServers_empty_iff spec :
  pool (newServers spec) = [] <->
  Servers spec = [] \/
  (ServersTags spec <> [] /\
   Forall (fun server => ~ tagsIntersect (ServersTags spec) server)
          (Servers spec)).
Proof.
  rewrite newServers_eq. cbn [pool].
  destruct (decide (ServersTags spec = [])) as [E | E].
  - split; [by left | intros [H | [H _]]; done].
  - split.
    + intros H. right. split; [done | ].
      apply Forall_forall. intros server Hin Ht.
      assert (Hf : server ∈ filter (tagsIntersect (ServersTags spec)) (Servers spec))
        by (by apply list_elem_of_filter).
      rewrite H in Hf. by apply not_elem_of_nil in Hf.
    + intros [H | [_ H]]; [by rewrite H | ].
      induction H as [| server rest Hs Hr IH]; [done | ].
      rewrite filter_cons. by destruct (decide _).
Qed.

(** X2: when the spec has no server, or has a tag filter that no server
    meets, the pool that [newServers] builds is empty, of length 0 and
    weight sum 0, and [next] panics on it under each policy, whatever the
    request and the draws. *)
Theorem next_on_empty_pool_panics Hash32 g g' ctx spec l :
  Servers spec = [] \/
  (ServersTags spec <> [] /\
   Forall (fun server => ~ tagsIntersect (ServersTags spec) server)
          (Servers spec)) ->
  SpecLoadBalance spec = Some l ->
  pool (newServers spec) = [] /\
  httpbackend_len.len (newServers spec) = 0 /\
  weightsSum (newServers spec) = 0 /\
  exists msg, (next Hash32 g g' ctx (newServers spec)).2 = Panic msg.
Proof.
  intros Hempty Hl. apply newServers_empty_iff in Hempty as Hp.
  assert (Hw : weightsSum (newServers spec) = 0)
    by (by rewrite newServers_weightsSum_wraps, Hp).
  split; [done | ].
  split; [unfold httpbackend_len.len; by rewrite Hp | ]. split; [done | ].
  apply (next_empty_panics _ _ _ _ _ l); [done | done | ].
  by rewrite newServers_eq.
Qed.

Lemma next_on_empty_pool_panics_witness :
  ((Servers specGold = [] \/
    (ServersTags specGold <> [] /\
     Forall (fun server => ~ tagsIntersect (ServersTags specGold) server)
            (Servers specGold))) /\
   SpecLoadBalance specGold = Some (mkLoadBalance "" policyRandom "")) /\
  (pool (newServers specGold) = [] /\
   httpbackend_len.len (newServers specGold) = 0 /\
   weightsSum (newServers specGold) = 0 /\
   exists msg,
     (next (fun _ => 5) 1 2 noContext (newServers specGold)).2 = Panic msg).
Proof.
  assert (H : (Servers specGold = [] \/
               (ServersTags specGold <> [] /\
                Forall (fun server => ~ tagsIntersect (ServersTags specGold) server)
                       (Servers specGold))) /\
              SpecLoadBalance specGold = Some (mkLoadBalance "" policyRandom "")).
  { split; [ | reflexivity]. right. split; [discriminate | ].
    repeat constructor; intros Ht; apply (bool_decide_pack _) in Ht;
      by vm_compute in Ht. }
  split; [exact H | ].
  exact (next_on_empty_pool_panics (fun _ => 5) 1 2 noContext specGold _
           (proj1 H) (proj2 H)).
Defined.

(** Under one of the five policies, on a pool that is not empty. *)
Lemma cumulative_S l (i : nat) server :
  l !! i = Some server ->
  cumulative l (S i) = cumulative l i + Weight server.
Proof.
  revert i. induction l as [| a rest IH]; intros i Hi; [done | ].
  destruct i as [| i]; unfold cumulative in *; simpl in *.
  - inversion Hi; subst. lia.
  - rewrite (IH i Hi). lia.
Qed.

Lemma cumulative_0 l : cumulative l 0 = 0.
Proof. unfold cumulative. by rewrite take_0. Qed.

Lemma weightedRandom_sound g g' ctx s :
  sound s -> 0 < weightsSum s ->
  exists (i : nat) server,
    weightedRandom g g' ctx s = ([], Ok server) /\
    pool s !! i = Some server /\
    cumulative (pool s) i <= g mod weightsSum s < cumulative (pool s) (S i).
Proof.
  intros (Hw & Hsum & Hmax) Hpos.
  destruct (Intn_range g (weightsSum s) Hpos) as [HI Hr].
  destruct (weightedWalk_first_exceeding (pool s) (g mod weightsSum s) Hw)
    as (i & server & Hwalk & Hi & Hlt & Hle); [lia | lia | ].
  exists i, server. unfold weightedRandom. rewrite HI, Hwalk.
  repeat split; [done | | done].
  destruct i as [| j]; [rewrite cumulative_0; lia | ].
  apply Hle. lia.
Qed.

(** X3: on a pool that is not empty and keeps the invariants of its
    constructor, with a counter below the greatest [int], [next] returns
    under each of the five policies a server of the pool, for every request,
    hash function and draw; it leaves the servers, the weight sum and the
    policy of the pool as they are and moves the counter by one at most.
    (Under [weightedRandom] the weight sum is to be positive.) *)
Theorem next_returns_pool_member Hash32 g g' ctx s l :
  lb s = Some l -> In (Policy l) knownPolicies ->
  pool s <> [] -> 0 <= count s -> count s + 1 <= max_int ->
  sound s -> (Policy l = policyWeightedRandom -> 0 < weightsSum s) ->
  exists s' server,
    next Hash32 g g' ctx s = (s', [], Ok server) /\
    server ∈ pool s /\
    pool s' = pool s /\ weightsSum s' = weightsSum s /\ lb s' = lb s /\
    (count s' = count s \/ count s' = count s + 1).
Proof.
  intros Hl Hk Hne Hc0 Hc1 Hsound Hpos. unfold next. rewrite Hl.
  destruct Hk as [Hk | [Hk | [Hk | [Hk | [Hk | []]]]]]; rewrite <- Hk in *.
  - change (String.eqb policyRoundRobin policyRoundRobin) with true. cbv iota.
    destruct (roundRobin_step ctx s Hne Hc0 Hc1) as (server & Hi & ->).
    exists (set_count (count s + 1) s), server.
    split; [reflexivity | ]. split; [by eapply list_elem_of_lookup_2 | ].
    cbn. tauto.
  - change (String.eqb policyRandom policyRoundRobin) with false.
    change (String.eqb policyRandom policyRandom) with true. cbv iota.
    destruct (random_index g ctx s Hne) as (server & -> & _ & Hin).
    exists s, server. split; [reflexivity | ]. split; [done | ]. tauto.
  - change (String.eqb policyWeightedRandom policyRoundRobin) with false.
    change (String.eqb policyWeightedRandom policyRandom) with false.
    change (String.eqb policyWeightedRandom policyWeightedRandom) with true.
    cbv iota.
    destruct (weightedRandom_sound g g' ctx s Hsound (Hpos eq_refl))
      as (i & server & -> & Hi & _).
    exists s, server.
    split; [reflexivity | ]. split; [by eapply list_elem_of_lookup_2 | ]. tauto.
  - change (String.eqb policyIPHash policyRoundRobin) with false.
    change (String.eqb policyIPHash policyRandom) with false.
    change (String.eqb policyIPHash policyWeightedRandom) with false.
    change (String.eqb policyIPHash policyIPHash) with true. cbv iota.
    unfold ipHash.
    destruct (hashed_index_in_pool (Hash32 (RealIP ctx)) (pool s) Hne)
      as (server & -> & _ & Hin).
    exists s, server. split; [reflexivity | ]. split; [done | ]. tauto.
  - change (String.eqb policyHeaderHash policyRoundRobin) with false.
    change (String.eqb policyHeaderHash policyRandom) with false.
    change (String.eqb policyHeaderHash policyWeightedRandom) with false.
    change (String.eqb policyHeaderHash policyIPHash) with false.
    change (String.eqb policyHeaderHash policyHeaderHash) with true. cbv iota.
    unfold headerHash. rewrite Hl.
    destruct (hashed_index_in_pool
                (Hash32 (HeaderGet ctx (HeaderHashKey l))) (pool s) Hne)
      as (server & -> & _ & Hin).
    exists s, server. split; [reflexivity | ]. split; [done | ]. tauto.
Qed.

Lemma poolABC_sound policy : sound (poolABC policy).
Proof.
  repeat split.
  - repeat constructor; by vm_compute.
  - by vm_compute.
Qed.

Lemma next_returns_pool_member_witness :
  (lb (poolABC policyIPHash) = Some (mkLoadBalance "" policyIPHash "") /\
   In (Policy (mkLoadBalance "" policyIPHash "")) knownPolicies /\
   pool (poolABC policyIPHash) <> [] /\
   0 <= count (poolABC policyIPHash) /\
   count (poolABC policyIPHash) + 1 <= max_int /\
   sound (poolABC policyIPHash) /\
   (Policy (mkLoadBalance "" policyIPHash "") = policyWeightedRandom ->
    0 < weightsSum (poolABC policyIPHash))) /\
  exists s' server,
    next (fun _ => 5) 1 2 noContext (poolABC policyIPHash)
    = (s', [], Ok server) /\
    server ∈ pool (poolABC policyIPHash) /\
    pool s' = pool (poolABC policyIPHash) /\
    weightsSum s' = weightsSum (poolABC policyIPHash) /\
    lb s' = lb (poolABC policyIPHash) /\
    (count s' = count (poolABC policyIPHash) \/
     count s' = count (poolABC policyIPHash) + 1).
Proof.
  assert (H1 : lb (poolABC policyIPHash) = Some (mkLoadBalance "" policyIPHash ""))
    by reflexivity.
  assert (H2 : In (Policy (mkLoadBalance "" policyIPHash "")) knownPolicies)
    by (simpl; tauto).
  assert (H3 : pool (poolABC policyIPHash) <> []) by discriminate.
  assert (H4 : 0 <= count (poolABC policyIPHash)) by (vm_compute; discriminate).
  assert (H5 : count (poolABC policyIPHash) + 1 <= max_int)
    by (vm_compute; discriminate).
  assert (H6 : sound (poolABC policyIPHash)) by apply poolABC_sound.
  assert (H7 : Policy (mkLoadBalance "" policyIPHash "") = policyWeightedRandom ->
               0 < weightsSum (poolABC policyIPHash)) by (intros _; reflexivity).
  split; [repeat split; assumption || apply H6 | ].
  exact (next_returns_pool_member (fun _ => 5) 1 2 noContext _ _
           H1 H2 H3 H4 H5 H6 H7).
Defined.

End Selection.

Section Rotation.

Import Go httpbackend balancing rotation.

(** X4: under a policy that is none of the five, [next] logs the policy as
    a bug and serves the request as [roundRobin] does, counter included. *)
Theorem next_unknown_policy_is_roundRobin Hash32 g g' ctx s l :
  lb s = Some l -> ~ In (Policy l) knownPolicies ->
  next Hash32 g g' ctx s
  = ((roundRobin ctx s).1, [BugUnknownPolicy (Policy l)], (roundRobin ctx s).2).
Proof.
  intros Hl Hk. unfold next. rewrite Hl.
  assert (Hneq : forall p, In p knownPolicies -> String.eqb (Policy l) p = false).
  { intros p Hp. apply String.eqb_neq. intros E. apply Hk. by rewrite E. }
  rewrite !Hneq by (simpl; tauto).
  by destruct (roundRobin ctx s).
Qed.

Lemma next_unknown_policy_is_roundRobin_witness :
  (lb (poolABC "leastConn") = Some samples.leastConn /\
   ~ In (Policy samples.leastConn) knownPolicies) /\
  next (fun _ => 5) 1 2 noContext (poolABC "leastConn")
  = ((roundRobin noContext (poolABC "leastConn")).1,
     [BugUnknownPolicy (Policy samples.leastConn)],
     (roundRobin noContext (poolABC "leastConn")).2).
Proof.
  assert (H : lb (poolABC "leastConn") = Some samples.leastConn /\
              ~ In (Policy samples.leastConn) knownPolicies).
  { split; [reflexivity | ]. simpl. intros H.
    repeat (destruct H as [H | H]; [discriminate H | ]). exact H. }
  split; [exact H | ].
  exact (next_unknown_policy_is_roundRobin (fun _ => 5) 1 2 noContext _ _
           (proj1 H) (proj2 H)).
Defined.

Lemma roundRobin_index ctx s :
  pool s <> [] -> 0 <= count s -> count s + 1 <= max_int ->
  roundRobin ctx s
  = (set_count (count s + 1) s,
     index (pool s) ((count s + 1) mod len (pool s))).
Proof.
  intros Hne H0 H1.
  destruct (roundRobin_step ctx s Hne H0 H1) as (server & Hi & ->).
  f_equal. pose proof (len_pos _ Hne) as Hlen.
  destruct (index_lookup (pool s) ((count s + 1) mod len (pool s)))
    as (a & Ha & ->); [by apply Z.mod_pos_bound | ]. congruence.
Qed.

(** The [i]-th of [m] selections in sequence is the server at the index
    (counter + i) mod len. *)
Lemma selections_indices m : forall ctx s,
  pool s <> [] -> 0 <= count s -> count s + Z.of_nat m <= max_int ->
  selections m ctx s
  = map (fun i : nat => index (pool s) ((count s + Z.of_nat i) mod len (pool s)))
        (seq 1 m).
Proof.
  induction m as [| m IH]; intros ctx s Hne H0 Hm; [done | ].
  cbn [selections seq map].
  rewrite roundRobin_index by (try done; lia).
  rewrite IH by (try done; cbn; lia). cbn [pool count set_count].
  f_equal. rewrite <- (seq_shift m 1), map_map.
  apply map_ext. intros i. do 2 f_equal. lia.
Qed.

Lemma rotate1_lookup {A : Type} (l : list A) (i : nat) :
  (i < length l)%nat ->
  rotate1 l !! i = l !! (Z.to_nat ((Z.of_nat i + 1) mod len l)).
Proof.
  intros Hi. unfold rotate1, len.
  destruct l as [| a rest]; [simpl in Hi; lia | ].
  change (drop 1 (a :: rest)) with rest.
  change (take 1 (a :: rest)) with [a]. cbn [length] in *.
  destruct (decide (i = length rest)) as [-> | Hne].
  - replace ((Z.of_nat (length rest) + 1) mod Z.of_nat (S (length rest)))
      with 0 by (rewrite Nat2Z.inj_succ, <- Z.add_1_r, Z_mod_same_full; done).
    rewrite lookup_app_r by lia. rewrite Nat.sub_diag. reflexivity.
  - rewrite Z.mod_small by lia.
    rewrite lookup_app_l by lia.
    replace (Z.to_nat (Z.of_nat i + 1)) with (S i) by lia. done.
Qed.

Lemma rotate1_length {A : Type} (l : list A) : length (rotate1 l) = length l.
Proof.
  unfold rotate1. rewrite length_app, length_drop, length_take.
  destruct l; simpl; lia.
Qed.

Lemma rotate1_Permutation {A : Type} (l : list A) : rotate1 l ≡ₚ l.
Proof.
  unfold rotate1. rewrite Permutation_app_comm. by rewrite take_drop.
Qed.

(** One round: as many selections as the pool has servers, from a counter
    that is a multiple of that number, go once around the pool. *)
Lemma selections_round ctx s :
  pool s <> [] -> 0 <= count s -> count s + len (pool s) <= max_int ->
  count s mod len (pool s) = 0 ->
  selections (length (pool s)) ctx s = map Ok (rotate1 (pool s)).
Proof.
  intros Hne H0 Hmax Hmod. pose proof (len_pos _ Hne) as Hlen.
  rewrite selections_indices by (try done; unfold len in *; lia).
  apply list_eq. intros i.
  rewrite !list_lookup_fmap.
  destruct (decide (i < length (pool s))%nat) as [Hi | Hi].
  - rewrite lookup_seq_lt by done. cbn [fmap option_fmap option_map].
    rewrite rotate1_lookup by done.
    replace ((count s + Z.of_nat (1 + i)) mod len (pool s))
      with ((Z.of_nat i + 1) mod len (pool s)).
    + destruct (index_lookup (pool s) ((Z.of_nat i + 1) mod len (pool s)))
        as (a & -> & ->); [by apply Z.mod_pos_bound | done].
    + rewrite <- (Z.add_mod_idemp_l (count s)) by lia. rewrite Hmod.
      f_equal. lia.
  - rewrite lookup_seq_ge by lia.
    rewrite (lookup_ge_None_2 (rotate1 (pool s))) by (rewrite rotate1_length; lia).
    done.
Qed.

Lemma selections_app m1 : forall m2 ctx s,
  pool s <> [] -> 0 <= count s -> count s + Z.of_nat (m1 + m2) <= max_int ->
  selections (m1 + m2) ctx s
  = selections m1 ctx s
    ++ selections m2 ctx (set_count (count s + Z.of_nat m1) s).
Proof.
  induction m1 as [| m1 IH]; intros m2 ctx s Hne H0 Hmax.
  - cbn [selections app Nat.add]. rewrite Z.add_0_r. by destruct s.
  - cbn [selections Nat.add].
    rewrite roundRobin_index by (try done; lia).
    rewrite IH by (try done; cbn; lia). cbn [app pool count set_count].
    do 3 f_equal. unfold set_count. cbn. f_equal. lia.
Qed.

Lemma selections_rounds ctx (k : nat) : forall s,
  pool s <> [] -> 0 <= count s ->
  count s + Z.of_nat k * len (pool s) <= max_int ->
  count s mod len (pool s) = 0 ->
  selections (k * length (pool s)) ctx s
  = concat (replicate k (map Ok (rotate1 (pool s)))).
Proof.
  induction k as [| k IH]; intros s Hne H0 Hmax Hmod; [done | ].
  pose proof (len_pos _ Hne) as Hlen.
  cbn [Nat.mul replicate concat].
  rewrite selections_app by (try done; unfold len in *; lia).
  rewrite selections_round by (try done; lia).
  f_equal.
  pose proof (IH (set_count (count s + Z.of_nat (length (pool s))) s)) as IH'.
  cbn [pool count set_count] in IH'. apply IH'; try done; unfold len in *; try lia.
  rewrite <- Z.add_mod_idemp_l by lia. rewrite Hmod. cbn [Z.add].
  by rewrite Z_mod_same_full.
Qed.

Lemma rounds_Permutation (k : nat) (l : list Server) :
  concat (replicate k (map Ok (rotate1 l)))
  ≡ₚ concat (replicate k (map (@Ok Server) l)).
Proof.
  induction k as [| k IH]; [done | ].
  cbn [replicate concat]. by rewrite IH, rotate1_Permutation.
Qed.

(** X5: round-robin is fair.  From a fresh pool of [n] servers, [k * n]
    selections in sequence go [k] times around the pool, starting with its
    second server: each round returns each server of the pool once, and in
    all each server is returned [k] times. *)
Theorem roundRobin_rounds ctx spec (k : nat) :
  pool (newServers spec) <> [] ->
  Z.of_nat k * len (pool (newServers spec)) <= max_int ->
  selections (k * length (pool (newServers spec))) ctx (newServers spec)
  = concat (replicate k (map Ok (rotate1 (pool (newServers spec))))) /\
  selections (k * length (pool (newServers spec))) ctx (newServers spec)
  ≡ₚ concat (replicate k (map Ok (pool (newServers spec)))).
Proof.
  intros Hne Hmax.
  assert (Hc : count (newServers spec) = 0) by (by rewrite newServers_eq).
  assert (E : selections (k * length (pool (newServers spec))) ctx (newServers spec)
              = concat (replicate k (map Ok (rotate1 (pool (newServers spec)))))).
  { apply selections_rounds; rewrite ?Hc; try done; lia. }
  split; [exact E | ]. rewrite E. apply rounds_Permutation.
Qed.

Lemma roundRobin_rounds_witness :
  (pool (newServers specBlue) <> [] /\
   Z.of_nat 3 * len (pool (newServers specBlue)) <= max_int) /\
  (selections (3 * length (pool (newServers specBlue))) noContext
              (newServers specBlue)
   = concat (replicate 3 (map Ok (rotate1 (pool (newServers specBlue))))) /\
   selections (3 * length (pool (newServers specBlue))) noContext
              (newServers specBlue)
   ≡ₚ concat (replicate 3 (map Ok (pool (newServers specBlue))))).
Proof.
  assert (H : pool (newServers specBlue) <> [] /\
              Z.of_nat 3 * len (pool (newServers specBlue)) <= max_int)
    by (split; [discriminate | vm_compute; discriminate]).
  split; [exact H | ].
  exact (roundRobin_rounds noContext specBlue 3 (proj1 H) (proj2 H)).
Defined.

End Rotation.

Section Weights.

Import Go httpbackend balancing rotation.

(** X6: the counter of [roundRobin] is converted to [int] before the
    remainder is taken.  Once the incremented counter is above the greatest
    [int] the index is negative, and the selection panics with an index out
    of range unless the number of servers divides 2^64 minus the counter. *)
Theorem roundRobin_past_max_int_panics ctx s :
  pool s <> [] -> max_int <= count s -> count s + 1 < 2 ^ 64 ->
  (2 ^ 64 - (count s + 1)) mod len (pool s) <> 0 ->
  roundRobin ctx s = (set_count (count s + 1) s, Panic "index out of range").
Proof.
  intros Hne Hlo Hhi Hmod. pose proof (len_pos _ Hne) as Hlen.
  unfold max_int in Hlo.
  assert (H64 : 2 ^ 64 = 2 * 2 ^ 63) by reflexivity.
  unfold roundRobin, AddUint64, uint64, wrap_unsigned.
  rewrite (Z.mod_small (count s + 1) (2 ^ 64)) by lia.
  assert (Hint : int (count s + 1) = - (2 ^ 64 - (count s + 1))).
  { unfold int, wrap_signed. change (2 ^ (64 - 1)) with (2 ^ 63).
    replace (count s + 1 + 2 ^ 63) with (count s + 1 - 2 ^ 63 + 1 * 2 ^ 64) by lia.
    rewrite Z.mod_add by lia. rewrite Z.mod_small by lia. lia. }
  rewrite Hint. unfold rem.
  destruct (len (pool s) =? 0) eqn:E; [apply Z.eqb_eq in E; lia | ].
  cbn [bind]. rewrite Z.rem_opp_l by lia.
  rewrite Z.rem_mod_nonneg by lia.
  pose proof (Z.mod_pos_bound (2 ^ 64 - (count s + 1)) (len (pool s)) Hlen).
  unfold index.
  destruct (- ((2 ^ 64 - (count s + 1)) mod len (pool s)) <? 0) eqn:E0; [done | ].
  apply Z.ltb_ge in E0. lia.
Qed.

Lemma roundRobin_past_max_int_panics_witness :
  (pool poolWorn <> [] /\ max_int <= count poolWorn /\
   count poolWorn + 1 < 2 ^ 64 /\
   (2 ^ 64 - (count poolWorn + 1)) mod len (pool poolWorn) <> 0) /\
  roundRobin noContext poolWorn
  = (set_count (count poolWorn + 1) poolWorn, Panic "index out of range").
Proof.
  assert (H : pool poolWorn <> [] /\ max_int <= count poolWorn /\
              count poolWorn + 1 < 2 ^ 64 /\
              (2 ^ 64 - (count poolWorn + 1)) mod len (pool poolWorn) <> 0).
  { split; [discriminate | ]. split; [vm_compute; discriminate | ].
    split; [reflexivity | vm_compute; discriminate]. }
  split; [exact H | ].
  destruct H as (H1 & H2 & H3 & H4).
  exact (roundRobin_past_max_int_panics noContext _ H1 H2 H3 H4).
Defined.

Lemma cumulative_le l : forall k : nat,
  Forall (fun server => 0 <= Weight server) l ->
  0 <= cumulative l k <= sumWeights l.
Proof.
  induction l as [| a rest IH]; intros k Hw; unfold cumulative in *.
  - rewrite take_nil. simpl. lia.
  - inversion Hw as [| ? ? Ha Hr]; subst.
    destruct k as [| k]; simpl.
    + pose proof (sumWeights_nonneg _ Hr). lia.
    + specialize (IH k Hr). lia.
Qed.

(** The walk returns the server at [i] for each number of the interval
    from the cumulative weight before [i] up to that with [i]. *)
Lemma weightedWalk_interval l : forall r (i : nat) server,
  Forall (fun server => 0 <= Weight server) l -> sumWeights l <= max_int ->
  l !! i = Some server ->
  cumulative l i <= r < cumulative l (S i) ->
  weightedWalk r l = Some server.
Proof.
  induction l as [| a rest IH]; intros r i server Hw Hmax Hi Hr; [done | ].
  inversion Hw as [| ? ? Ha Hrest]; subst.
  pose proof (cumulative_le (a :: rest) i Hw) as Hlo.
  pose proof (cumulative_le (a :: rest) (S i) Hw) as Hup.
  pose proof (sumWeights_nonneg _ Hrest) as Hsum.
  simpl in Hmax, Hup. cbn [weightedWalk].
  rewrite int_small by (unfold min_int, max_int in *; simpl in Hup; lia).
  destruct i as [| i].
  - inversion Hi; subst. unfold cumulative in Hr. simpl in Hr.
    destruct (r - Weight server <? 0) eqn:E; [done | ].
    apply Z.ltb_ge in E. lia.
  - unfold cumulative in Hr. simpl in Hr, Hi.
    pose proof (cumulative_le rest i Hrest) as Hi0.
    destruct (r - Weight a <? 0) eqn:E; [apply Z.ltb_lt in E; unfold cumulative in Hi0; lia | ].
    apply (IH _ i); [done | lia | done | unfold cumulative; lia].
Qed.

(** X7: weighted random selects in proportion to the weights.  On a pool
    that keeps the invariants of its constructor, with a positive weight
    sum, the draws that select the server at index [i] are those of an
    interval whose width is the weight of that server; the intervals follow
    each other in the order of the list from 0 up to the weight sum, and
    each draw falls into the interval of the server it returns. *)
Theorem weightedRandom_proportional g' ctx s :
  sound s -> 0 < weightsSum s ->
  (forall (i : nat) server,
     pool s !! i = Some server ->
     cumulative (pool s) (S i) - cumulative (pool s) i = Weight server /\
     0 <= cumulative (pool s) i /\ cumulative (pool s) (S i) <= weightsSum s /\
     forall g,
       cumulative (pool s) i <= g mod weightsSum s < cumulative (pool s) (S i) ->
       weightedRandom g g' ctx s = ([], Ok server)) /\
  (forall g, exists (i : nat) server,
     weightedRandom g g' ctx s = ([], Ok server) /\
     pool s !! i = Some server /\
     cumulative (pool s) i <= g mod weightsSum s < cumulative (pool s) (S i)).
Proof.
  intros Hsound Hpos. split.
  - destruct Hsound as (Hw & Hsum & Hmax).
    intros i server Hi.
    pose proof (cumulative_le (pool s) i Hw).
    pose proof (cumulative_le (pool s) (S i) Hw).
    split; [rewrite (cumulative_S _ _ _ Hi); lia | ].
    split; [lia | ]. split; [lia | ].
    intros g Hg. unfold weightedRandom.
    destruct (Intn_range g (weightsSum s) Hpos) as [-> _].
    rewrite (weightedWalk_interval (pool s) _ i server); try done. lia.
  - intros g. by apply weightedRandom_sound.
Qed.

Lemma weightedRandom_proportional_witness :
  (sound (poolABC policyWeightedRandom) /\
   0 < weightsSum (poolABC policyWeightedRandom)) /\
  ((forall (i : nat) server,
      pool (poolABC policyWeightedRandom) !! i = Some server ->
      cumulative (pool (poolABC policyWeightedRandom)) (S i)
      - cumulative (pool (poolABC policyWeightedRandom)) i = Weight server /\
      0 <= cumulative (pool (poolABC policyWeightedRandom)) i /\
      cumulative (pool (poolABC policyWeightedRandom)) (S i)
      <= weightsSum (poolABC policyWeightedRandom) /\
      forall g,
        cumulative (pool (poolABC policyWeightedRandom)) i
        <= g mod weightsSum (poolABC policyWeightedRandom)
        < cumulative (pool (poolABC policyWeightedRandom)) (S i) ->
        weightedRandom g 2 noContext (poolABC policyWeightedRandom)
        = ([], Ok server)) /\
   (forall g, exists (i : nat) server,
      weightedRandom g 2 noContext (poolABC policyWeightedRandom)
      = ([], Ok server) /\
      pool (poolABC policyWeightedRandom) !! i = Some server /\
      cumulative (pool (poolABC policyWeightedRandom)) i
      <= g mod weightsSum (poolABC policyWeightedRandom)
      < cumulative (pool (poolABC policyWeightedRandom)) (S i))).
Proof.
  assert (H : sound (poolABC policyWeightedRandom) /\
              0 < weightsSum (poolABC policyWeightedRandom))
    by (split; [apply poolABC_sound | reflexivity]).
  split; [exact H | ].
  exact (weightedRandom_proportional 2 noContext _ (proj1 H) (proj2 H)).
Defined.

(** X8: on such a pool weighted random never returns a server of weight 0:
    the server returned has a positive weight and is in the pool. *)
Theorem weightedRandom_skips_zero_weight g g' ctx s :
  sound s -> 0 < weightsSum s ->
  exists server,
    weightedRandom g g' ctx s = ([], Ok server) /\
    server ∈ pool s /\ 0 < Weight server.
Proof.
  intros Hsound Hpos.
  destruct (weightedRandom_sound g g' ctx s Hsound Hpos)
    as (i & server & Hr & Hi & Hg).
  exists server. split; [done | ]. split; [by eapply list_elem_of_lookup_2 | ].
  rewrite (cumulative_S _ _ _ Hi) in Hg. lia.
Qed.

Lemma weightedRandom_skips_zero_weight_witness :
  (sound (poolABC policyWeightedRandom) /\
   0 < weightsSum (poolABC policyWeightedRandom)) /\
  exists server,
    weightedRandom 9 2 noContext (poolABC policyWeightedRandom)
    = ([], Ok server) /\
    server ∈ pool (poolABC policyWeightedRandom) /\ 0 < Weight server.
Proof.
  assert (H : sound (poolABC policyWeightedRandom) /\
              0 < weightsSum (poolABC policyWeightedRandom))
    by (split; [apply poolABC_sound | reflexivity]).
  split; [exact H | ].
  exact (weightedRandom_skips_zero_weight 9 2 noContext _ (proj1 H) (proj2 H)).
Defined.

(** X9: the pool of a spec whose weights lie in [[0, 100]], as their
    validation tag asks, keeps the invariants that the selections rely on,
    as long as the weights add up to an [int]; its servers are servers of
    the spec, in their order. *)
Theorem newServers_sound spec :
  Forall (fun server => 0 <= Weight server <= 100) (Servers spec) ->
  100 * len (Servers spec) <= max_int ->
  sound (newServers spec) /\
  pool (newServers spec) `sublist_of` Servers spec /\
  httpbackend_len.len (newServers spec) <= len (Servers spec).
Proof.
  intros Hw Hlen.
  assert (Hsub : pool (newServers spec) `sublist_of` Servers spec).
  { rewrite newServers_eq. cbn [pool]. destruct (decide _); [done | ].
    apply sublist_filter. }
  assert (Hw' : Forall (fun server => 0 <= Weight server <= 100)
                       (pool (newServers spec))).
  { apply Forall_forall. intros server Hin.
    apply (proj1 (Forall_forall _ _) Hw). by eapply elem_of_sublist. }
  assert (Hl : (length (pool (newServers spec)) <= length (Servers spec))%nat)
    by (by apply sublist_length).
  assert (Hb : forall l : list Server,
             Forall (fun server => 0 <= Weight server <= 100) l ->
             0 <= sumWeights l <= 100 * len l).
  { induction 1 as [| a l Ha Hl' IH]; unfold len in *; simpl; lia. }
  pose proof (Hb _ Hw') as Hsum. unfold len in *.
  split; [ | split; [done | unfold httpbackend_len.len, len; lia]].
  repeat split.
  - eapply Forall_impl; [exact Hw' | ]. simpl. intros; lia.
  - rewrite newServers_weightsSum_wraps.
    apply int_small. unfold min_int, max_int in *. lia.
  - rewrite newServers_weightsSum_wraps, int_small;
      unfold min_int, max_int in *; lia.
Qed.

Lemma newServers_sound_witness :
  (Forall (fun server => 0 <= Weight server <= 100) (Servers specBlue) /\
   100 * len (Servers specBlue) <= max_int) /\
  (sound (newServers specBlue) /\
   pool (newServers specBlue) `sublist_of` Servers specBlue /\
   httpbackend_len.len (newServers specBlue) <= len (Servers specBlue)).
Proof.
  assert (H : Forall (fun server => 0 <= Weight server <= 100) (Servers specBlue) /\
              100 * len (Servers specBlue) <= max_int).
  { split; [ | vm_compute; discriminate].
    repeat constructor; vm_compute; discriminate. }
  split; [exact H | ].
  exact (newServers_sound specBlue (proj1 H) (proj2 H)).
Defined.

End Weights.

(** ** More on the pipeline types and the service registry *)

Section PipelineTypes.

Import pipeline_types.

(** X10: [ValidType] and [GetAllTypes] agree: a type is valid exactly when
    [GetAllTypes] lists it, which is the case for [LinearPipeline] and for
    no other string, and the list has no type twice. *)
Theorem ValidType_iff_listed t :
  (ValidType t = true <-> t ∈ GetAllTypes) /\
  (ValidType t = true <-> t = "LinearPipeline"%string) /\
  NoDup GetAllTypes.
Proof.
  unfold ValidType, GetAllTypes. split; [ | split].
  - rewrite list_elem_of_fmap. split.
    + destruct (PIPELINE_TYPES !! t) as [u |] eqn:E; [intros _ | done].
      exists (t, u). split; [done | ]. by apply elem_of_map_to_list.
    + intros ([t' u] & -> & Hin). apply elem_of_map_to_list in Hin.
      cbn. by rewrite Hin.
  - unfold PIPELINE_TYPES. split.
    + destruct (_ !! t) as [u |] eqn:E; [intros _ | done].
      apply lookup_singleton_Some in E. by destruct E.
    + intros ->. by rewrite lookup_singleton_eq.
  - apply NoDup_fst_map_to_list.
Qed.

End PipelineTypes.

Section Registry.

Import Go eureka eurekaserviceregistry flattening registry_status ticks.

(** X11: [getClient] builds the client once.  It never returns an error;
    it returns the client the object holds or, when there is none, a client
    for the endpoints of the spec, which it stores; a second call returns
    the same client and changes nothing.  The counts, the done channel and
    the spec are not touched. *)
Theorem getClient_builds_once esr :
  exists c,
    getClient esr = (set_client (Some c) esr, c, None) /\
    getClient (set_client (Some c) esr) = (set_client (Some c) esr, c, None) /\
    (client esr = None -> c = NewClient (Endpoints (spec esr))) /\
    (forall c0, client esr = Some c0 -> c = c0 /\ set_client (Some c) esr = esr).
Proof.
  unfold getClient, buildClient. destruct esr as [sp [c0 |] n d]; cbn.
  - exists c0. split; [done | ]. split; [done | ]. split; [done | ].
    intros c1 E. by inversion E.
  - eexists. split; [done | ]. split; [done | ]. split; done.
Qed.

(** X12: [Close] on an open registry object drops the client, closes the
    done channel and calls [CloseRegistry] with the name of the spec, once;
    the counts stay.  A second [Close] panics on the closed channel and does
    not reach [CloseRegistry]. *)
Theorem Close_twice_panics esr :
  done esr = false ->
  exists esr',
    Close esr = (esr', [CloseRegistry (Name (spec esr))], Ok tt) /\
    done esr' = true /\ client esr' = None /\
    serversNum esr' = serversNum esr /\ spec esr' = spec esr /\
    Close esr' = (esr', [], Panic "close of closed channel").
Proof.
  intros Hd. unfold Close, closeClient.
  destruct esr as [sp [c |] n d]; cbn in *; subst d; cbn;
    eexists; repeat split.
Qed.

Lemma Close_twice_panics_witness :
  done (samples.registry "10s") = false /\
  exists esr',
    Close (samples.registry "10s")
    = (esr', [CloseRegistry (Name (spec (samples.registry "10s")))], Ok tt) /\
    done esr' = true /\ client esr' = None /\
    serversNum esr' = serversNum (samples.registry "10s") /\
    spec esr' = spec (samples.registry "10s") /\
    Close esr' = (esr', [], Panic "close of closed channel").
Proof.
  assert (H : done (samples.registry "10s") = false) by reflexivity.
  split; [exact H | ].
  exact (Close_twice_panics _ H).
Defined.

(** X13: [New] with an open previous object closes it first, which is the
    one event of the construction, a call of [CloseRegistry] with the name
    of the previous spec, and returns a fresh object: the new spec, a
    client for its endpoints, no counts, an open done channel.  Nothing of
    the previous object is taken over. *)
Theorem New_replaces_previous sp prev :
  done prev = false ->
  exists prev',
    New sp (Some prev)
    = (Ok (mkEurekaServiceRegistry sp (Some (NewClient (Endpoints sp))) ∅ false),
       Some prev', [CloseRegistry (Name (spec prev))]) /\
    done prev' = true /\ client prev' = None /\
    New sp None
    = (Ok (mkEurekaServiceRegistry sp (Some (NewClient (Endpoints sp))) ∅ false),
       None, []).
Proof.
  intros Hd. unfold New, Close, closeClient.
  destruct prev as [sp0 [c |] n d]; cbn in *; subst d; cbn;
    eexists; repeat split.
Qed.

Lemma New_replaces_previous_witness :
  done (samples.registry "10s") = false /\
  exists prev',
    New DefaultSpec (Some (samples.registry "10s"))
    = (Ok (mkEurekaServiceRegistry DefaultSpec
             (Some (NewClient (Endpoints DefaultSpec))) ∅ false),
       Some prev', [CloseRegistry (Name (spec (samples.registry "10s")))]) /\
    done prev' = true /\ client prev' = None /\
    New DefaultSpec None
    = (Ok (mkEurekaServiceRegistry DefaultSpec
             (Some (NewClient (Endpoints DefaultSpec))) ∅ false),
       None, []).
Proof.
  assert (H : done (samples.registry "10s") = false) by reflexivity.
  split; [exact H | ].
  exact (New_replaces_previous DefaultSpec _ H).
Defined.

(** X14: [New] with a previous object that is closed already panics in the
    [Close] of that object: no object is returned, and neither
    [CloseRegistry] nor any other call is made. *)
Theorem New_after_closed_previous_panics sp prev :
  done prev = true ->
  New sp (Some prev)
  = (Panic "close of closed channel", Some (closeClient prev), []).
Proof.
  intros Hd. unfold New, Close.
  assert (Hc : done (closeClient prev) = true).
  { unfold closeClient. by destruct (client prev). }
  by rewrite Hc.
Qed.

Lemma New_after_closed_previous_panics_witness :
  done closedRegistry = true /\
  New DefaultSpec (Some closedRegistry)
  = (Panic "close of closed channel", Some (closeClient closedRegistry), []).
Proof.
  assert (H : done closedRegistry = true) by reflexivity.
  split; [exact H | ].
  exact (New_after_closed_previous_panics DefaultSpec _ H).
Defined.

(** X15: [Status] reports the health [ready] for every object, closed ones
    included, since the retrieval of the client cannot fail; the timestamp
    is never set and stays 0; [ServersNum] is the map of the object.  The
    call leaves a client in the object, also after [Close] has dropped
    it. *)
Theorem Status_always_ready esr :
  exists c,
    EurekaServiceRegistry_Status esr
    = (set_client (Some c) esr, mkStatus 0 "ready" (serversNum esr)) /\
    (client esr = None -> c = NewClient (Endpoints (spec esr))) /\
    (done esr = false ->
     client (EurekaServiceRegistry_Status (Close esr).1.1).1
     = Some (NewClient (Endpoints (spec esr)))).
Proof.
  destruct (getClient_no_error esr) as [c Hc]. exists c.
  unfold EurekaServiceRegistry_Status. rewrite Hc. split; [done | ].
  split.
  - intros Hn. unfold getClient, buildClient in Hc. rewrite Hn in Hc.
    by inversion Hc.
  - intros Hd. unfold Close, closeClient, getClient, buildClient.
    destruct esr as [sp [c0 |] n d]; cbn in *; subst d; by cbn.
Qed.

End Registry.

Section Ticks.

Import Go eureka eurekaserviceregistry flattening registry_status ticks.

Lemma published_app out out' :
  published (out ++ out') = published out ++ published out'.
Proof. unfold published. apply omap_app. Qed.

Lemma published_Printf l : published (map Printf l) = [].
Proof. induction l as [| a l IH]; [done | exact IH]. Qed.




Lemma entries_origin name instance :
  Forall (fun server =>
            exists port,
              InstancePort instance = Some port /\
              ServiceName server = name /\
              Hostname server = HostName instance /\
              HostIP server = IpAddr instance /\
              Port server = int16 (PortNumber port) /\
              ((Scheme server = ""%string /\ Enabled port = true) \/
               (Scheme server = "https"%string /\
                enabled (SecurePort instance) = true)))
         (entries name instance).
Proof.
  unfold entries. destruct (InstancePort instance) as [port |]; [ | constructor].
  destruct (Enabled port) eqn:E1, (enabled (SecurePort instance)) eqn:E2;
    repeat constructor; exists port; cbn; tauto.
Qed.

Lemma flatten_origin apps :
  Forall (fun server =>
            exists app instance port,
              app ∈ apps /\ instance ∈ Instances app /\
              InstancePort instance = Some port /\
              ServiceName server = AppName app /\
              Hostname server = HostName instance /\
              HostIP server = IpAddr instance /\
              Port server = int16 (PortNumber port) /\
              ((Scheme server = ""%string /\ Enabled port = true) \/
               (Scheme server = "https"%string /\
                enabled (SecurePort instance) = true)))
         (flatten apps).
Proof.
  apply Forall_forall. intros server Hin. unfold flatten in Hin.
  apply list_elem_of_In, in_flat_map in Hin as (app & Happ & Hin).
  apply in_flat_map in Hin as (instance & Hinst & Hin).
  pose proof (entries_origin (AppName app) instance) as Ho.
  apply list_elem_of_In in Hin.
  apply (proj1 (Forall_forall _ _) Ho) in Hin as (port & Hp).
  exists app, instance, port. split; [by apply list_elem_of_In | ].
  split; [by apply list_elem_of_In | exact Hp].
Qed.

Lemma entries_perPort app instance :
  InstancePort instance <> None ->
  entries (AppName app) instance
  = ports.plainEntry app instance ++ ports.secureEntry app instance.
Proof.
  unfold entries, ports.plainEntry, ports.secureEntry, ports.plainNumber.
  destruct (InstancePort instance) as [port |]; [intros _ | done].
  cbn [enabled]. by destruct (Enabled port), (enabled (SecurePort instance)).
Qed.

Lemma flatten_perPort apps :
  portsPresent apps -> flatten apps = ports.perPort apps.
Proof.
  induction 1 as [| app rest Ha Hr IH]; [done | ].
  unfold flatten, ports.perPort in *. cbn [flat_map]. rewrite IH. f_equal.
  induction Ha as [| instance l Hi Hl IHl]; [done | ].
  cbn [flat_map]. by rewrite IHl, entries_perPort.
Qed.

Lemma len_filter_app {A : Type} (P : A -> Prop) `{!forall x, Decision (P x)}
    (l k : list A) :
  len (filter P (l ++ k)) = len (filter P l) + len (filter P k).
Proof. by rewrite filter_app, len_app. Qed.

Lemma perPort_instances app l :
  len (filter (fun server => Scheme server = ""%string)
        (flat_map (fun instance =>
                     ports.plainEntry app instance
                     ++ ports.secureEntry app instance) l))
  = len (filter (fun instance => enabled (InstancePort instance) = true) l) /\
  len (filter (fun server => Scheme server = "https"%string)
        (flat_map (fun instance =>
                     ports.plainEntry app instance
                     ++ ports.secureEntry app instance) l))
  = len (filter (fun instance => enabled (SecurePort instance) = true) l) /\
  len (flat_map (fun instance =>
                   ports.plainEntry app instance
                   ++ ports.secureEntry app instance) l)
  = len (filter (fun instance => enabled (InstancePort instance) = true) l)
    + len (filter (fun instance => enabled (SecurePort instance) = true) l).
Proof.
  induction l as [| instance l (IH1 & IH2 & IH3)]; [done | ].
  cbn [flat_map]. rewrite !len_filter_app, !len_app, IH1, IH2, IH3.
  rewrite !(filter_cons _ instance).
  unfold ports.plainEntry, ports.secureEntry.
  destruct (enabled (InstancePort instance)), (enabled (SecurePort instance));
    cbn; unfold len in *; repeat split; repeat case_decide; try done;
    cbn [length]; lia.
Qed.

Lemma perPort_schemes apps :
  len (filter (fun server => Scheme server = ""%string) (ports.perPort apps))
  = ports.plainEnabled apps /\
  len (filter (fun server => Scheme server = "https"%string)
              (ports.perPort apps))
  = ports.secureEnabled apps /\
  len (ports.perPort apps)
  = ports.plainEnabled apps + ports.secureEnabled apps.
Proof.
  unfold ports.perPort, ports.plainEnabled, ports.secureEnabled.
  induction apps as [| app rest (IH1 & IH2 & IH3)]; [done | ].
  cbn [flat_map]. rewrite !len_filter_app, !len_app, IH1, IH2, IH3.
  destruct (perPort_instances app (Instances app)) as (-> & -> & ->).
  repeat split; lia.
Qed.

(** X16: a tick over applications whose instances all have a [Port] prints
    each entry of the answer and then publishes all of them, in the same
    order, by one call of [ReplaceServers] under the name of the spec; the
    entries of the answer are one for each enabled port, as [perPort] lists
    them.  Afterwards [serversNum] has, for each service, the number of its
    entries among them, and no key for a service without an entry: the
    counts of the tick replace the counts the object had. *)
Theorem update_counts_published esr apps :
  portsPresent (Apps apps) ->
  (update (Fetched apps) esr).1.2
  = map Printf (ports.perPort (Apps apps))
    ++ [ReplaceServers (Name (spec esr)) (ports.perPort (Apps apps))] /\
  (update (Fetched apps) esr).2 = Ok tt /\
  forall name,
    serversNum (update (Fetched apps) esr).1.1 !! name
    = counted (occurrences name (ports.perPort (Apps apps))).
Proof.
  intros Hp. rewrite <- (flatten_perPort _ Hp).
  by destruct (update_present esr apps Hp) as (c & -> & Hcount).
Qed.

Lemma update_counts_published_witness :
  portsPresent (Apps tick1) /\
  ((update (Fetched tick1) (samples.registry "10s")).1.2
   = map Printf (ports.perPort (Apps tick1))
     ++ [ReplaceServers (Name (spec (samples.registry "10s")))
                        (ports.perPort (Apps tick1))] /\
   (update (Fetched tick1) (samples.registry "10s")).2 = Ok tt /\
   forall name,
     serversNum (update (Fetched tick1) (samples.registry "10s")).1.1 !! name
     = counted (occurrences name (ports.perPort (Apps tick1)))).
Proof.
  assert (H : portsPresent (Apps tick1)) by (repeat constructor; discriminate).
  split; [exact H | ].
  exact (update_counts_published _ _ H).
Defined.

(** The first tick of the scenario: two entries for [orders], one for
    [users]. *)
Example update_tick1_counts :
  len (ports.perPort (Apps tick1)) = 3 /\
  occurrences "orders" (ports.perPort (Apps tick1)) = 2 /\
  occurrences "users" (ports.perPort (Apps tick1)) = 1 /\
  counted (occurrences "payments" (ports.perPort (Apps tick1))) = None.
Proof. repeat split. Qed.

(** X17: what such a tick publishes is exactly one entry for each enabled
    port of the answer: application after application and instance after
    instance, an entry with the empty scheme when the plain port is enabled,
    then an entry with the scheme [https] when the secure port is enabled,
    each with the name of the application, the host name and the address of
    the instance and the number of the plain port as an [int16].  So there
    are as many entries with the empty scheme as instances with an enabled
    plain port, and as many [https] entries as instances with an enabled
    secure port, and no other entry. *)
Theorem update_entry_per_enabled_port esr apps :
  portsPresent (Apps apps) ->
  published (update (Fetched apps) esr).1.2
  = [(Name (spec esr), ports.perPort (Apps apps))] /\
  len (filter (fun server => Scheme server = ""%string)
              (ports.perPort (Apps apps)))
  = ports.plainEnabled (Apps apps) /\
  len (filter (fun server => Scheme server = "https"%string)
              (ports.perPort (Apps apps)))
  = ports.secureEnabled (Apps apps) /\
  len (ports.perPort (Apps apps))
  = ports.plainEnabled (Apps apps) + ports.secureEnabled (Apps apps).
Proof.
  intros Hp. destruct (update_present esr apps Hp) as (c & -> & _).
  cbn [fst snd]. rewrite published_app, published_Printf.
  rewrite (flatten_perPort _ Hp).
  split; [done | apply perPort_schemes].
Qed.

Lemma update_entry_per_enabled_port_witness :
  portsPresent (Apps samples.bothPorts) /\
  (published (update (Fetched samples.bothPorts) (samples.registry "10s")).1.2
   = [(Name (spec (samples.registry "10s")),
       ports.perPort (Apps samples.bothPorts))] /\
   len (filter (fun server => Scheme server = ""%string)
               (ports.perPort (Apps samples.bothPorts)))
   = ports.plainEnabled (Apps samples.bothPorts) /\
   len (filter (fun server => Scheme server = "https"%string)
               (ports.perPort (Apps samples.bothPorts)))
   = ports.secureEnabled (Apps samples.bothPorts) /\
   len (ports.perPort (Apps samples.bothPorts))
   = ports.plainEnabled (Apps samples.bothPorts)
     + ports.secureEnabled (Apps samples.bothPorts)).
Proof.
  assert (H : portsPresent (Apps samples.bothPorts))
    by (repeat constructor; discriminate).
  split; [exact H | ].
  exact (update_entry_per_enabled_port _ _ H).
Defined.

(** The sample with both ports enabled: a plain and an [https] entry. *)
Example perPort_bothPorts :
  ports.perPort (Apps samples.bothPorts)
  = [samples.entry 8080 ""; samples.entry 8080 "https"].
Proof. reflexivity. Qed.

Lemma tally_nil m : tally m [] = m.
Proof. done. Qed.



(** One tick with an answer that is an error or has all its ports. *)
Lemma update_wholesome answer esr :
  wholesome answer ->
  exists esr' out,
    update answer esr = (esr', out, Ok tt) /\
    published out = snapshots (Name (spec esr)) [answer] /\
    serversNum esr' = lastCounts (serversNum esr) [answer] /\
    spec esr' = spec esr /\ done esr' = done esr.
Proof.
  intros Hw. destruct answer as [apps | err].
  - destruct (update_present esr apps Hw) as (c & -> & _).
    eexists _, _. split; [reflexivity | ].
    rewrite published_app, published_Printf. by cbn.
  - destruct (getClient_no_error esr) as [c Hc].
    unfold update. rewrite Hc. eexists _, _. split; [reflexivity | ]. by cbn.
Qed.

Lemma snapshots_cons name answer answers :
  snapshots name (answer :: answers)
  = snapshots name [answer] ++ snapshots name answers.
Proof. unfold snapshots. cbn. by destruct answer. Qed.

Lemma loop_wholesome signals : forall esr,
  Forall wholesome (served signals) ->
  exists esr' out,
    loop signals esr = (esr', out, Ok tt) /\
    published out = snapshots (Name (spec esr)) (served signals) /\
    serversNum esr' = lastCounts (serversNum esr) (served signals) /\
    spec esr' = spec esr /\ done esr' = done esr.
Proof.
  induction signals as [| [| answer] rest IH]; intros esr Hw;
    cbn [loop served] in *; [by eexists _, _ | by eexists _, _ | ].
  inversion Hw as [| ? ? Ha Hr]; subst.
  destruct (update_wholesome answer esr Ha)
    as (esr1 & out1 & -> & Hp1 & Hn1 & Hs1 & Hd1).
  destruct (IH esr1 Hr) as (esr2 & out2 & -> & Hp2 & Hn2 & Hs2 & Hd2).
  eexists _, _. split; [reflexivity | ].
  rewrite published_app, Hp1, Hp2, Hn2, Hn1, Hs2, Hs1, Hd2, Hd1.
  rewrite (snapshots_cons _ answer (served rest)). repeat split; reflexivity.
Qed.

(** X19: with an interval that parses, [run] makes one update at once and
    one for each timer signal up to the done signal.  When no answer has an
    instance without its [Port], the run does not panic; the snapshots
    published are, in order, those of the answers that are not errors, each
    under the name of the spec; and [serversNum] ends as the counts of the
    last such answer, or as it was when every answer was an error. *)
Theorem run_publishes_each_answer first signals esr d :
  time.ParseDuration (SyncInterval (spec esr)) = Some d ->
  Forall wholesome (first :: served signals) ->
  (run first signals esr).2 = Ok tt /\
  published (run first signals esr).1.2
  = snapshots (Name (spec esr)) (first :: served signals) /\
  serversNum (run first signals esr).1.1
  = lastCounts (serversNum esr) (first :: served signals) /\
  spec (run first signals esr).1.1 = spec esr /\
  done (run first signals esr).1.1 = done esr.
Proof.
  intros Hparse Hw. inversion Hw as [| ? ? Ha Hr]; subst.
  unfold run. rewrite Hparse.
  destruct (update_wholesome first esr Ha)
    as (esr1 & out1 & -> & Hp1 & Hn1 & Hs1 & Hd1).
  destruct (loop_wholesome signals esr1 Hr)
    as (esr2 & out2 & -> & Hp2 & Hn2 & Hs2 & Hd2).
  cbn [fst snd].
  rewrite published_app, Hp1, Hp2, Hn2, Hn1, Hs2, Hs1, Hd2, Hd1.
  rewrite (snapshots_cons _ first (served signals)). repeat split; reflexivity.
Qed.

Lemma run_publishes_each_answer_witness :
  (time.ParseDuration (SyncInterval (spec (samples.registry "10s")))
   = Some (10 * time.Second) /\
   Forall wholesome
          (Fetched tick1
           :: served [After (FetchError "timeout"); After (Fetched tick2);
                      Done; After (Fetched tick1)])) /\
  ((run (Fetched tick1)
        [After (FetchError "timeout"); After (Fetched tick2); Done;
         After (Fetched tick1)] (samples.registry "10s")).2 = Ok tt /\
   published
     (run (Fetched tick1)
          [After (FetchError "timeout"); After (Fetched tick2); Done;
           After (Fetched tick1)] (samples.registry "10s")).1.2
   = snapshots (Name (spec (samples.registry "10s")))
       (Fetched tick1
        :: served [After (FetchError "timeout"); After (Fetched tick2);
                   Done; After (Fetched tick1)]) /\
   serversNum
     (run (Fetched tick1)
          [After (FetchError "timeout"); After (Fetched tick2); Done;
           After (Fetched tick1)] (samples.registry "10s")).1.1
   = lastCounts (serversNum (samples.registry "10s"))
       (Fetched tick1
        :: served [After (FetchError "timeout"); After (Fetched tick2);
                   Done; After (Fetched tick1)]) /\
   spec (run (Fetched tick1)
             [After (FetchError "timeout"); After (Fetched tick2); Done;
              After (Fetched tick1)] (samples.registry "10s")).1.1
   = spec (samples.registry "10s") /\
   done (run (Fetched tick1)
             [After (FetchError "timeout"); After (Fetched tick2); Done;
              After (Fetched tick1)] (samples.registry "10s")).1.1
   = done (samples.registry "10s")).
Proof.
  assert (H : time.ParseDuration (SyncInterval (spec (samples.registry "10s")))
              = Some (10 * time.Second) /\
              Forall wholesome
                (Fetched tick1
                 :: served [After (FetchError "timeout"); After (Fetched tick2);
                            Done; After (Fetched tick1)])).
  { split; [reflexivity | ]. cbn [served].
    repeat constructor; discriminate. }
  split; [exact H | ].
  exact (run_publishes_each_answer _ _ _ _ (proj1 H) (proj2 H)).
Defined.

(** The scenario of two ticks: three instances of two services, then two
    instances after one has gone. *)
Example run_two_ticks :
  published (run (Fetched tick1) [After (Fetched tick2)]
                 (samples.registry "10s")).1.2
  = [("eureka"%string, flatten (Apps tick1));
     ("eureka"%string, flatten (Apps tick2))] /\
  len (flatten (Apps tick1)) = 3 /\ len (flatten (Apps tick2)) = 2 /\
  serversNum (run (Fetched tick1) [After (Fetched tick2)]
                  (samples.registry "10s")).1.1 !! "orders"%string = Some 1.
Proof. repeat split. Qed.

(** X20: the done signal ends the loop of [run]: the signals behind the
    first done signal are not served, so the run is that of the signals
    before it. *)
Theorem run_stops_at_done first pre post esr :
  run first (pre ++ Done :: post) esr = run first pre esr /\
  served (pre ++ Done :: post) = served pre.
Proof.
  assert (Hloop : forall e, loop (pre ++ Done :: post) e = loop pre e).
  { induction pre as [| [| answer] rest IH]; intros e; cbn [loop app];
      [done | done | ].
    destruct (update answer e) as [[e' out] [[] | msg]]; [ | done].
    by rewrite IH. }
  split.
  - unfold run. destruct (time.ParseDuration _); [ | done].
    destruct (update first esr) as [[e' out] [[] | msg]]; [ | done].
    by rewrite Hloop.
  - clear Hloop.
    induction pre as [| [| answer] rest IH]; cbn [served app]; [done | done | ].
    by rewrite IH.
Qed.

Lemma published_none out :
  Forall (fun e => is_ReplaceServers e = false) out -> published out = [].
Proof.
  induction 1 as [| e out He Hout IH]; [done | ].
  unfold published in *. cbn. destruct e; try done; exact IH.
Qed.

Lemma update_portMissing apps esr :
  portMissing (Apps apps) ->
  exists esr' out msg,
    update (Fetched apps) esr = (esr', out, Panic msg) /\ published out = [].
Proof.
  intros Hex. destruct (getClient_no_error esr) as [c Hc].
  unfold update. rewrite Hc.
  destruct (forApplications_nil_Port (Apps apps) (mkFlat [] ∅ []) Hex)
    as [msg Hm].
  destruct (forApplications_printed (Apps apps) (mkFlat [] ∅ []))
    as (out & Ho & Hf).
  destruct (forApplications (mkFlat [] ∅ []) (Apps apps)) as [st r].
  cbn in Hm, Ho. subst r. eexists _, _, _. split; [reflexivity | ].
  rewrite Ho. by apply published_none.
Qed.

(** X21: a tick that meets an instance without its [Port] ends the run in
    a panic: the signals behind it are not served, and what the run has
    published are the snapshots of the answers before that tick. *)
Theorem run_stops_at_nil_Port first pre apps post esr d :
  time.ParseDuration (SyncInterval (spec esr)) = Some d ->
  Forall (fun s => s <> Done) pre ->
  Forall wholesome (first :: served pre) ->
  portMissing (Apps apps) ->
  (exists msg,
     (run first (pre ++ After (Fetched apps) :: post) esr).2 = Panic msg) /\
  published (run first (pre ++ After (Fetched apps) :: post) esr).1.2
  = snapshots (Name (spec esr)) (first :: served pre).
Proof.
  intros Hparse Hnd Hw Hex. inversion Hw as [| ? ? Ha Hr]; subst.
  assert (Hloop : forall e,
             spec e = spec esr ->
             exists e' out msg,
               loop (pre ++ After (Fetched apps) :: post) e
               = (e', out, Panic msg) /\
               published out = snapshots (Name (spec esr)) (served pre)).
  { clear Ha Hw. induction pre as [| [| answer] rest IH]; intros e He.
    - cbn [app loop served].
      destruct (update_portMissing apps e Hex) as (e' & out & msg & -> & Hp).
      by eexists _, _, _.
    - inversion Hnd; subst. done.
    - inversion Hnd as [| ? ? _ Hnd']; subst.
      cbn [served] in Hr. inversion Hr as [| ? ? Ha Hr']; subst.
      cbn [app loop served].
      destruct (update_wholesome answer e Ha)
        as (e1 & out1 & -> & Hp1 & _ & Hs1 & _).
      destruct (IH Hnd' Hr' e1) as (e2 & out2 & msg & -> & Hp2);
        [congruence | ].
      eexists _, _, _. split; [reflexivity | ].
      rewrite published_app, Hp1, Hp2, He.
      by rewrite (snapshots_cons _ answer (served rest)). }
  unfold run. rewrite Hparse.
  destruct (update_wholesome first esr Ha)
    as (esr1 & out1 & -> & Hp1 & _ & Hs1 & _).
  destruct (Hloop esr1 Hs1) as (e2 & out2 & msg & -> & Hp2).
  cbn [fst snd]. split; [by exists msg | ].
  rewrite published_app, Hp1, Hp2.
  by rewrite (snapshots_cons _ first (served pre)).
Qed.

Lemma run_stops_at_nil_Port_witness :
  (time.ParseDuration (SyncInterval (spec (samples.registry "10s")))
   = Some (10 * time.Second) /\
   Forall (fun s => s <> Done) [After (Fetched tick2)] /\
   Forall wholesome (Fetched tick1 :: served [After (Fetched tick2)]) /\
   portMissing (Apps samples.nilPort)) /\
  ((exists msg,
      (run (Fetched tick1)
           ([After (Fetched tick2)]
            ++ After (Fetched samples.nilPort) :: [After (Fetched tick1)])
           (samples.registry "10s")).2 = Panic msg) /\
   published
     (run (Fetched tick1)
          ([After (Fetched tick2)]
           ++ After (Fetched samples.nilPort) :: [After (Fetched tick1)])
          (samples.registry "10s")).1.2
   = snapshots (Name (spec (samples.registry "10s")))
       (Fetched tick1 :: served [After (Fetched tick2)])).
Proof.
  assert (H : time.ParseDuration (SyncInterval (spec (samples.registry "10s")))
              = Some (10 * time.Second) /\
              Forall (fun s => s <> Done) [After (Fetched tick2)] /\
              Forall wholesome (Fetched tick1 :: served [After (Fetched tick2)]) /\
              portMissing (Apps samples.nilPort)).
  { split; [reflexivity | ]. split; [repeat constructor; discriminate | ].
    split; [cbn [served]; repeat constructor; discriminate | ].
    constructor. constructor. reflexivity. }
  split; [exact H | ].
  destruct H as (H1 & H2 & H3 & H4).
  exact (run_stops_at_nil_Port _ _ _ _ _ _ H1 H2 H3 H4).
Defined.



End Ticks.
